(** * LICMNA: loop-invariant code motion over a host IR

    A shallow embedding of [LICM/LICMNA.cpp].  The pass receives a loop, a
    dominator tree and loop information from the host compiler; it walks the
    blocks of the loop, asks for every instruction whether it is loop
    invariant and safe to hoist, and moves the eligible ones in front of the
    terminator of the loop preheader.

    Instructions and blocks are identified by their address, which we model
    as a natural number.  The IR of the enclosing function is an ordered list
    of blocks, each with its ordered instruction list, next to a table that
    gives every instruction its opcode and operands. *)

From Stdlib Require Import List Arith Bool Lia PeanoNat Permutation ZArith.
Import ListNotations.

(* ================================================================== *)
(** ** The host IR *)

Abbreviation InstId := nat (only parsing).
Abbreviation BlockId := nat (only parsing).
Abbreviation LoopId := nat (only parsing).

(** Modelled from the spec: the opcode enumeration of the host IR is declared
    in the compiler's headers, not in this repository.  The constructors
    follow the categories the spec lists: control transfer, arithmetic and
    logic, shifts, memory access, address computation, casts, calls, select
    and the remaining ones. *)
Inductive Opcode : Type :=
  (* control transfer *)
  | Ret | Br | Switch | IndirectBr | Invoke | Unreachable
  (* unary *)
  | FNeg
  (* binary arithmetic and logic *)
  | Add | FAdd | Sub | FSub | Mul | FMul
  | UDiv | SDiv | FDiv | URem | SRem | FRem
  | Shl | LShr | AShr | And | Or | Xor
  (* memory *)
  | Alloca | Load | Store | GetElementPtr | Fence | AtomicCmpXchg | AtomicRMW
  (* casts *)
  | Trunc | ZExt | SExt | FPToUI | FPToSI | UIToFP | SIToFP
  | FPTrunc | FPExt | PtrToInt | IntToPtr | BitCast | AddrSpaceCast
  (* other *)
  | ICmp | FCmp | PHI | Call | Select | ExtractElement | InsertElement.

(** Modelled from the spec: the host's opcode predicates [isTerminator],
    [isBinaryOp], [isShift] and [isCast], from the same headers. *)
Definition isTerminator (op : Opcode) : bool :=
  match op with
  | Ret | Br | Switch | IndirectBr | Invoke | Unreachable => true
  | _ => false
  end.

Definition isBinaryOp (op : Opcode) : bool :=
  match op with
  | Add | FAdd | Sub | FSub | Mul | FMul
  | UDiv | SDiv | FDiv | URem | SRem | FRem
  | Shl | LShr | AShr | And | Or | Xor => true
  | _ => false
  end.

Definition isShift (op : Opcode) : bool :=
  match op with
  | Shl | LShr | AShr => true
  | _ => false
  end.

Definition isCast (op : Opcode) : bool :=
  match op with
  | Trunc | ZExt | SExt | FPToUI | FPToSI | UIToFP | SIToFP
  | FPTrunc | FPExt | PtrToInt | IntToPtr | BitCast | AddrSpaceCast => true
  | _ => false
  end.

Definition isSelectInst (op : Opcode) : bool :=
  match op with Select => true | _ => false end.

Definition isGetElementPtrInst (op : Opcode) : bool :=
  match op with GetElementPtr => true | _ => false end.

(** A value usable as an operand: a constant, a definition from outside the
    function body (an argument or a global), or the result of an
    instruction. *)
Inductive Value : Type :=
  | VConstant (c : nat)
  | VExternal (x : nat)
  | VInstruction (i : InstId).

Record Instruction : Type := mkInstruction {
  opcode : Opcode;
  operands : list Value;
  successors : list BlockId   (* targets of a control-transfer instruction *)
}.

(** The enclosing function: its blocks in layout order with their
    instruction lists, and the instruction table. *)
Record Function : Type := mkFunction {
  fn_blocks : list (BlockId * list InstId);
  fn_inst : InstId -> Instruction
}.

Definition memb (x : nat) (l : list nat) : bool := existsb (Nat.eqb x) l.

(** [BB->getInstList()]: the instructions of a block, in order. *)
Definition blockInsts (F : Function) (BB : BlockId) : list InstId :=
  match find (fun p => fst p =? BB) (fn_blocks F) with
  | Some p => snd p
  | None => []
  end.

(** [I.getParent()]: the block that holds the instruction, if any. *)
Definition getParent (F : Function) (I : InstId) : option BlockId :=
  match find (fun p => memb I (snd p)) (fn_blocks F) with
  | Some p => Some (fst p)
  | None => None
  end.

(** Modelled from the spec: the host's [BasicBlock::getTerminator] is not
    part of this repository.  It yields the last instruction of the block
    when that is a control transfer (the block's terminating instruction),
    and null otherwise. *)
Definition getTerminator (F : Function) (BB : BlockId) : option InstId :=
  match rev (blockInsts F BB) with
  | [] => None
  | t :: _ => if isTerminator (opcode (fn_inst F t)) then Some t else None
  end.

(** The edges of the control-flow graph leaving a block. *)
Definition blockSuccessors (F : Function) (BB : BlockId) : list BlockId :=
  match getTerminator F BB with
  | Some t => successors (fn_inst F t)
  | None => []
  end.

(** Unlinking a node from an instruction list. *)
Definition remove_inst (I : InstId) (l : list InstId) : list InstId :=
  filter (fun x => negb (x =? I)) l.

(** Linking a node in front of the node [D] of a list; a list that does not
    hold [D] is left alone. *)
Fixpoint insert_before (D I : InstId) (l : list InstId) : list InstId :=
  match l with
  | [] => []
  | x :: r => if x =? D then I :: x :: r else x :: insert_before D I r
  end.

(** Modelled from the spec: the host's graph mutation primitive
    [I.moveBefore(D)] is not part of this repository.  It unlinks [I] from
    the list that holds it and splices it in front of [D] in the list that
    holds [D]; only block membership and position change.  Splicing a node
    in front of itself changes nothing. *)
Definition moveBefore (I D : InstId) (F : Function) : Function :=
  if I =? D then F
  else
    {| fn_blocks :=
         map (fun p => (fst p, insert_before D I (remove_inst I (snd p))))
             (fn_blocks F);
       fn_inst := fn_inst F |}.

(* ================================================================== *)
(** ** The analyses the pass consumes *)

(** The loop handed to the pass: its address, its member blocks, its
    preheader (null when the loop has none) and its unique exit blocks. *)
Record Loop : Type := mkLoop {
  loop_id : LoopId;
  loop_blocks : list BlockId;
  getLoopPreheader : option BlockId;
  getUniqueExitBlocks : list BlockId
}.

(** [L->contains(BB)]. *)
Definition contains (L : Loop) (BB : BlockId) : bool := memb BB (loop_blocks L).

(** [L->contains(Inst)]: membership of the parent block; an instruction that
    is in no block is in no loop. *)
Definition containsInst (L : Loop) (F : Function) (I : InstId) : bool :=
  match getParent F I with
  | Some BB => contains L BB
  | None => false
  end.

(** Modelled from the spec: the host's [Loop::isLoopInvariant(Value)] is not
    part of this repository.  A constant or external definition is always
    invariant; an instruction result is invariant iff its defining
    instruction is not a member of the loop. *)
Definition Loop_isLoopInvariant (L : Loop) (F : Function) (V : Value) : bool :=
  match V with
  | VInstruction Def => negb (containsInst L F Def)
  | _ => true
  end.

Definition isConstant (V : Value) : bool :=
  match V with VConstant _ => true | _ => false end.

(** The dominator tree: the blocks in the order its node iterator yields
    them and the dominance decision procedure (the first argument may be the
    null parent of a detached instruction). *)
Record DominatorTree : Type := mkDominatorTree {
  dt_nodes : list BlockId;
  dominates : option BlockId -> BlockId -> bool
}.

(** What the pass obtains from its environment: the dominator tree,
    [LoopInfo::getLoopFor] (the innermost loop of a block) and the
    speculative-execution oracle over an instruction. *)
Record Analyses : Type := mkAnalyses {
  DT : DominatorTree;
  getLoopFor : BlockId -> option LoopId;
  isSafeToSpeculativelyExecute : InstId -> bool
}.

(* ================================================================== *)
(** ** The pass *)

(** [LICMNA::isInSubLoop]: the innermost loop of the block is not [L]. *)
Definition isInSubLoop (an : Analyses) (L : Loop) (BB : BlockId) : bool :=
  match getLoopFor an BB with
  | Some ParentLoop => negb (loop_id L =? ParentLoop)
  | None => true
  end.

(** [LICMNA::checkInstructionType]. *)
Definition checkInstructionType (F : Function) (I : InstId) : bool :=
  let op := opcode (fn_inst F I) in
  isBinaryOp op || isShift op || isSelectInst op || isCast op ||
  isGetElementPtrInst op.

(** [LICMNA::checkInstructionOperands]: the loop over the operands returns
    false at the first operand that is neither a constant nor invariant. *)
Fixpoint checkOperands (L : Loop) (F : Function) (ops : list Value) : bool :=
  match ops with
  | [] => true
  | V :: rest =>
      if negb (isConstant V) && negb (Loop_isLoopInvariant L F V) then false
      else checkOperands L F rest
  end.

Definition checkInstructionOperands (L : Loop) (F : Function) (I : InstId)
  : bool :=
  checkOperands L F (operands (fn_inst F I)).

(** [LICMNA::isLoopInvariant]. *)
Definition isLoopInvariant (L : Loop) (F : Function) (I : InstId) : bool :=
  checkInstructionType F I && checkInstructionOperands L F I.

(** [LICMNA::dominatesExits]: the accumulator starts at false and every exit
    block is conjoined into it. *)
Definition dominatesExits (an : Analyses) (L : Loop) (F : Function)
  (I : InstId) : bool :=
  let Exits := getUniqueExitBlocks L in
  let Parent := getParent F I in
  fold_left (fun Dominates BB => Dominates && dominates (DT an) Parent BB)
            Exits false.

(** [LICMNA::safeToHoist]. *)
Definition safeToHoist (an : Analyses) (L : Loop) (F : Function) (I : InstId)
  : bool :=
  isSafeToSpeculativelyExecute an I || dominatesExits an L F I.

(** The result of running a piece of the pass: it finishes, it dereferences
    a null pointer and the process dies in the state reached so far, or the
    model runs out of iterations. *)
Inductive outcome (A : Type) : Type :=
  | Done (a : A)
  | Fault (a : A)
  | OutOfFuel.
Arguments Done {A} a.
Arguments Fault {A} a.
Arguments OutOfFuel {A}.

(** The variables of [hoistInstructions]: the function being rewritten, the
    flag [Modified], the caller's vector [Instructions], and (for the
    statements about the traversal only) the log of the instructions the
    loop body was entered with. *)
Record HoistState : Type := mkHoistState {
  hs_fn : Function;
  hs_modified : bool;
  hs_instructions : list InstId;
  hs_examined : list InstId
}.

(** The body of the inner loop for the instruction [I] (lines 101-105). *)
Definition visit (an : Analyses) (L : Loop) (Destination : option InstId)
  (I : InstId) (s : HoistState) : outcome HoistState :=
  let F := hs_fn s in
  let examined := hs_examined s ++ [I] in
  if isLoopInvariant L F I && safeToHoist an L F I then
    match Destination with
    | None =>
        Fault {| hs_fn := F;
                 hs_modified := true;
                 hs_instructions := hs_instructions s;
                 hs_examined := examined |}
    | Some D =>
        Done {| hs_fn := moveBefore I D F;
                hs_modified := true;
                hs_instructions := hs_instructions s ++ [I];
                hs_examined := examined |}
    end
  else
    Done {| hs_fn := F;
            hs_modified := hs_modified s;
            hs_instructions := hs_instructions s;
            hs_examined := examined |}.

(** [BB->begin()]: the first node, or the end sentinel [None]. *)
Definition begin (F : Function) (BB : BlockId) : option InstId :=
  hd_error (blockInsts F BB).

(** [++it] on a list iterator that points at [I]: the node that follows [I]
    in the list, or the end sentinel. *)
Fixpoint next_in (l : list InstId) (I : InstId) : option InstId :=
  match l with
  | [] => None
  | x :: r => if x =? I then hd_error r else next_in r I
  end.

(** The inner loop (lines 95-106).  The iterator is advanced in the list as
    it is before the body runs, and is then used on the list as the body
    left it. *)
Fixpoint block_loop (fuel : nat) (an : Analyses) (L : Loop)
  (Destination : option InstId) (BB : BlockId) (it : option InstId)
  (s : HoistState) : outcome HoistState :=
  match it with
  | None => Done s
  | Some Cur =>
      match fuel with
      | 0 => OutOfFuel
      | S fuel' =>
          let it' := next_in (blockInsts (hs_fn s) BB) Cur in
          match visit an L Destination Cur s with
          | Done s' => block_loop fuel' an L Destination BB it' s'
          | Fault s' => Fault s'
          | OutOfFuel => OutOfFuel
          end
      end
  end.

(** The outer loop over the nodes of the dominator tree (lines 88-107). *)
Fixpoint nodes_loop (fuel : nat) (an : Analyses) (L : Loop)
  (Destination : option InstId) (nodes : list BlockId) (s : HoistState)
  : outcome HoistState :=
  match nodes with
  | [] => Done s
  | BB :: rest =>
      if negb (contains L BB) || isInSubLoop an L BB then
        nodes_loop fuel an L Destination rest s
      else
        match block_loop fuel an L Destination BB (begin (hs_fn s) BB) s with
        | Done s' => nodes_loop fuel an L Destination rest s'
        | Fault s' => Fault s'
        | OutOfFuel => OutOfFuel
        end
  end.

(** [LICMNA::hoistInstructions].  [fuel] bounds the iterations of each run
    of the inner loop; [hs_modified] of the result is the returned flag. *)
Definition hoistInstructions (fuel : nat) (an : Analyses) (L : Loop)
  (Instructions : list InstId) (F : Function) : outcome HoistState :=
  let s0 := {| hs_fn := F;
               hs_modified := false;
               hs_instructions := Instructions;
               hs_examined := [] |} in
  match getLoopPreheader L with
  | None => Fault s0
  | Some Preheader =>
      let Destination := getTerminator F Preheader in
      nodes_loop fuel an L Destination (dt_nodes (DT an)) s0
  end.

(** [LICMNA::runOnLoop], without the printing. *)
Definition runOnLoop (fuel : nat) (an : Analyses) (L : Loop) (F : Function)
  : outcome HoistState :=
  hoistInstructions fuel an L [] F.

(** An operand that does not vary with the loop: a constant, an external
    definition, or the result of an instruction outside the loop. *)
Definition invariant_operand (L : Loop) (F : Function) (V : Value) : Prop :=
  match V with
  | VConstant _ => True
  | VExternal _ => True
  | VInstruction Def => containsInst L F Def = false
  end.

(* ================================================================== *)
(** ** Well-formed inputs and the shape of a run *)

Fixpoint nodupb (l : list nat) : bool :=
  match l with
  | [] => true
  | x :: r => negb (memb x r) && nodupb r
  end.

(** All instructions of the function, block after block. *)
Definition allInsts (F : Function) : list InstId :=
  concat (map snd (fn_blocks F)).

(** The blocks the driver does not skip (line 91). *)
Definition retained (an : Analyses) (L : Loop) (BB : BlockId) : bool :=
  negb (negb (contains L BB) || isInSubLoop an L BB).

Definition retainedNodes (an : Analyses) (L : Loop) : list BlockId :=
  filter (retained an L) (dt_nodes (DT an)).

(** The instructions of the retained blocks of [F], in the order of the
    dominator-tree nodes and, within a block, in program order. *)
Definition traversal (an : Analyses) (L : Loop) (F : Function) : list InstId :=
  flat_map (blockInsts F) (retainedNodes an L).

(** What the host guarantees about the input of a run: block addresses are
    distinct, every instruction is linked at one place of one block, the
    dominator tree yields a block once, and the loop has a preheader that
    lies outside the loop and ends in a terminator. *)
Definition wellFormed (an : Analyses) (L : Loop) (F : Function) : bool :=
  nodupb (map fst (fn_blocks F)) &&
  nodupb (allInsts F) &&
  nodupb (dt_nodes (DT an)) &&
  match getLoopPreheader L with
  | Some P =>
      negb (contains L P) &&
      match getTerminator F P with Some _ => true | None => false end
  | None => false
  end.

(** Every block of the function ends in a terminator. *)
Definition blocksTerminated (F : Function) : bool :=
  forallb (fun p => match rev (snd p) with
                    | t :: _ => isTerminator (opcode (fn_inst F t))
                    | [] => false
                    end) (fn_blocks F).

(** Single assignment along the traversal: no operand of an instruction of
    an eligible opcode is defined by an instruction that the traversal
    reaches later.  (A phi may use a later definition; it is not eligible.) *)
Fixpoint defsBeforeUses (F : Function) (T : list InstId) : bool :=
  match T with
  | [] => true
  | Cur :: post =>
      (negb (checkInstructionType F Cur) ||
       forallb (fun V => match V with
                         | VInstruction Def => negb (memb Def post)
                         | _ => true
                         end) (operands (fn_inst F Cur))) &&
      defsBeforeUses F post
  end.

(** The loop body run over a fixed list of instructions. *)
Fixpoint visit_seq (an : Analyses) (L : Loop) (Destination : option InstId)
  (l : list InstId) (s : HoistState) : outcome HoistState :=
  match l with
  | [] => Done s
  | Cur :: rest =>
      match visit an L Destination Cur s with
      | Done s' => visit_seq an L Destination rest s'
      | Fault s' => Fault s'
      | OutOfFuel => OutOfFuel
      end
  end.

(** The test of line 101 for [I], read in the function [F] the run started
    from once the instructions [H] have been moved to the preheader. *)
Definition eligibleAfter (an : Analyses) (L : Loop) (F : Function)
  (H : list InstId) (I : InstId) : bool :=
  checkInstructionType F I &&
  forallb (fun V => match V with
                    | VInstruction Def => memb Def H || negb (containsInst L F Def)
                    | _ => true
                    end) (operands (fn_inst F I)) &&
  isSafeToSpeculativelyExecute an I.

(** The instructions a run over [T] hoists, after [H]. *)
Fixpoint selectHoisted (an : Analyses) (L : Loop) (F : Function)
  (T : list InstId) (H : list InstId) : list InstId :=
  match T with
  | [] => H
  | Cur :: rest =>
      selectHoisted an L F rest
        (if eligibleAfter an L F H Cur then H ++ [Cur] else H)
  end.

(** [G] is [F] with the instructions [H] moved, in this order, in front of
    the terminator [D] of the block [P]. *)
Definition represents (F : Function) (P : BlockId) (D : InstId)
  (H : list InstId) (G : Function) : Prop :=
  fn_inst G = fn_inst F /\
  map fst (fn_blocks G) = map fst (fn_blocks F) /\
  forall b,
    blockInsts G b =
    if b =? P then removelast (blockInsts F P) ++ H ++ [D]
    else filter (fun x => negb (memb x H)) (blockInsts F b).

(** An instruction that is not linked in block [P] of [F]. *)
Definition outsidePreheader (F : Function) (P : BlockId) (x : InstId) : Prop :=
  ~ In x (blockInsts F P).

(* ================================================================== *)
(** ** A sample function

    A single-block loop in a function of three blocks:
<<
    0 (preheader):  1: br 1
    1 (loop):      10: i  = phi [0, i']
                   11: u  = add a, b
                   12: v  = mul u, c
                   13: w  = load p
                   14: i' = add i, 1
                   15: q  = sdiv a, b
                   16: t  = add a, i'
                   17: br 1, 2
    2 (exit):      20: ret
>>
    The oracle accepts every instruction but the division. *)

Definition ex_inst (I : InstId) : Instruction :=
  match I with
  | 1 => mkInstruction Br [] [1]
  | 10 => mkInstruction PHI [VConstant 0; VInstruction 14] []
  | 11 => mkInstruction Add [VExternal 0; VExternal 1] []
  | 12 => mkInstruction Mul [VInstruction 11; VExternal 2] []
  | 13 => mkInstruction Load [VExternal 3] []
  | 14 => mkInstruction Add [VInstruction 10; VConstant 1] []
  | 15 => mkInstruction SDiv [VExternal 0; VExternal 1] []
  | 16 => mkInstruction Add [VExternal 0; VInstruction 14] []
  | 17 => mkInstruction Br [] [1; 2]
  | _ => mkInstruction Ret [] []
  end.

Definition ex_fn : Function :=
  {| fn_blocks := [(0, [1]); (1, [10; 11; 12; 13; 14; 15; 16; 17]); (2, [20])];
     fn_inst := ex_inst |}.

Definition ex_loop : Loop :=
  {| loop_id := 7;
     loop_blocks := [1];
     getLoopPreheader := Some 0;
     getUniqueExitBlocks := [2] |}.

Definition ex_dt : DominatorTree :=
  {| dt_nodes := [0; 1; 2];
     dominates := fun A B => match A with Some a => a <=? B | None => false end |}.

Definition ex_an : Analyses :=
  {| DT := ex_dt;
     getLoopFor := fun BB => if BB =? 1 then Some 7 else None;
     isSafeToSpeculativelyExecute := fun I => negb (I =? 15) |}.

(** The same loop without a preheader. *)
Definition ex_loop_no_preheader : Loop :=
  {| loop_id := 7;
     loop_blocks := [1];
     getLoopPreheader := None;
     getUniqueExitBlocks := [2] |}.

(** The function after the pass has moved [u] and [v]. *)
Definition ex_fn_hoisted : Function :=
  {| fn_blocks := [(0, [11; 12; 1]); (1, [10; 13; 14; 15; 16; 17]); (2, [20])];
     fn_inst := ex_inst |}.

(** The sample function with a preheader that has lost its terminator, and
    analyses whose oracle rejects every instruction. *)
Definition ex_fn_open : Function :=
  {| fn_blocks := [(0, []); (1, [10; 11; 12; 13; 14; 15; 16; 17]); (2, [20])];
     fn_inst := ex_inst |}.

Definition ex_an_strict : Analyses :=
  {| DT := ex_dt;
     getLoopFor := fun BB => if BB =? 1 then Some 7 else None;
     isSafeToSpeculativelyExecute := fun _ => false |}.

(* ================================================================== *)
(** ** LoopInfoNA: the loop statistics pass

    The sibling pass counts, for one loop, its blocks, instructions, atomic
    instructions and branches.  The counters are C++ [int]s: we keep them
    in [Z]; [count++] past [INT_MAX] is undefined and is modelled as [None];
    [count += bb->size()] is computed in the 64-bit unsigned type of
    [size()] and narrowed back to [int], which wraps. *)

Module LoopInfoNA.

(** A loop as this pass reads it: the loop itself, its immediate sub-loops
    and its nesting depth (1 for an outermost loop). *)
Record LoopNode : Type := mkLoopNode {
  theLoop : Loop;
  getSubLoops : list Loop;
  getLoopDepth : nat
}.

(** [L->blocks()]. *)
Definition blocks (L : LoopNode) : list BlockId := loop_blocks (theLoop L).

Definition INT_MAX : Z := 2147483647.

(** [count++] on an [int]. *)
Definition increment (count : Z) : option Z :=
  if (count <? INT_MAX)%Z then Some (count + 1)%Z else None.

(** Narrowing an unsigned value to [int]. *)
Definition to_int (z : Z) : Z :=
  let r := (z mod 4294967296)%Z in
  if (r <? 2147483648)%Z then r else (r - 4294967296)%Z.

(** [count += n] for an [int] count and a [size_t] n. *)
Definition add_size (count : Z) (n : nat) : Z :=
  to_int (((count mod 18446744073709551616) + Z.of_nat n)
            mod 18446744073709551616)%Z.

(** [LoopInfoNA::hasNestedLoops]. *)
Definition hasNestedLoops (L : LoopNode) : bool :=
  negb (length (getSubLoops L) =? 0).

(** [LoopInfoNA::isInSubLoop]: the loop over the sub-loops returns at the
    first one that contains the block. *)
Fixpoint anyContains (SLs : list Loop) (BB : BlockId) : bool :=
  match SLs with
  | [] => false
  | SL :: rest => if contains SL BB then true else anyContains rest BB
  end.

Definition isInSubLoop (L : LoopNode) (BB : BlockId) : bool :=
  anyContains (getSubLoops L) BB.

(** The counting loop shared by the counters: [if (test(x)) count++]. *)
Fixpoint count_if {A : Type} (test : A -> bool) (l : list A) (count : Z)
  : option Z :=
  match l with
  | [] => Some count
  | x :: rest =>
      if test x then
        match increment count with
        | Some count' => count_if test rest count'
        | None => None
        end
      else count_if test rest count
  end.

(** [LoopInfoNA::getNumBlocks]. *)
Definition getNumBlocks (L : LoopNode) : option Z :=
  count_if (fun BB => negb (isInSubLoop L BB)) (blocks L) 0%Z.

(** [LoopInfoNA::getNumInstructions]. *)
Definition getNumInstructions (F : Function) (L : LoopNode) : Z :=
  fold_left (fun count bb => add_size count (length (blockInsts F bb)))
            (blocks L) 0%Z.

(** [LoopInfoNA::isAtomic], over the host's [Instruction::isAtomic]. *)
Definition isAtomic (hostIsAtomic : InstId -> bool) (I : InstId) : bool :=
  if hostIsAtomic I then true else false.

(** [LoopInfoNA::getNumAtomics]: the two nested loops. *)
Fixpoint getNumAtomics_loop (hostIsAtomic : InstId -> bool) (F : Function)
  (bbs : list BlockId) (count : Z) : option Z :=
  match bbs with
  | [] => Some count
  | bb :: rest =>
      match count_if (isAtomic hostIsAtomic) (blockInsts F bb) count with
      | Some count' => getNumAtomics_loop hostIsAtomic F rest count'
      | None => None
      end
  end.

Definition getNumAtomics (hostIsAtomic : InstId -> bool) (F : Function)
  (L : LoopNode) : option Z :=
  getNumAtomics_loop hostIsAtomic F (blocks L) 0%Z.

(** [LoopInfoNA::isBranchInstruction]. *)
Definition isBranchInstruction (F : Function) (I : InstId) : bool :=
  match opcode (fn_inst F I) with
  | Br => true
  | IndirectBr => true
  | Switch => true
  | _ => false
  end.

(** [LoopInfoNA::getNumBranches]. *)
Fixpoint getNumBranches_loop (F : Function) (L : LoopNode)
  (bbs : list BlockId) (count : Z) : option Z :=
  match bbs with
  | [] => Some count
  | bb :: rest =>
      if isInSubLoop L bb then getNumBranches_loop F L rest count
      else
        match count_if (isBranchInstruction F) (blockInsts F bb) count with
        | Some count' => getNumBranches_loop F L rest count'
        | None => None
        end
  end.

Definition getNumBranches (F : Function) (L : LoopNode) : option Z :=
  getNumBranches_loop F L (blocks L) 0%Z.

(** All instructions of the blocks of the loop, sub-loops included. *)
Definition loopInsts (F : Function) (L : LoopNode) : list InstId :=
  flat_map (blockInsts F) (blocks L).

End LoopInfoNA.

(** The sample loop as the statistics pass reads it, and an oracle that
    calls no instruction atomic but the load. *)
Definition ex_node : LoopInfoNA.LoopNode :=
  {| LoopInfoNA.theLoop := ex_loop;
     LoopInfoNA.getSubLoops := [];
     LoopInfoNA.getLoopDepth := 1 |}.

Definition ex_atomic (I : InstId) : bool := I =? 13.

(** [n] increments of an [int] in a row. *)
Fixpoint increments (n : nat) (count : Z) : option Z :=
  match n with
  | 0 => Some count
  | S n' =>
      match LoopInfoNA.increment count with
      | Some count' => increments n' count'
      | None => None
      end
  end.

(** A loop nest: block 3 is an inner loop with preheader 2, inside the
    outer loop of blocks 1 to 4 with preheader 0.
<<
    0 (outer preheader):  1: br 1
    1 (outer header):    21: br 2
    2 (inner preheader): 30: br 3
    3 (inner loop):      31: u = add a, b
                         32: br 3, 4
    4 (outer latch):     40: br 1, 5
    5 (exit):            50: ret
>> *)
Definition ex2_inst (I : InstId) : Instruction :=
  match I with
  | 1 => mkInstruction Br [] [1]
  | 21 => mkInstruction Br [] [2]
  | 30 => mkInstruction Br [] [3]
  | 31 => mkInstruction Add [VExternal 0; VExternal 1] []
  | 32 => mkInstruction Br [] [3; 4]
  | 40 => mkInstruction Br [] [1; 5]
  | _ => mkInstruction Ret [] []
  end.

Definition ex2_fn : Function :=
  {| fn_blocks := [(0, [1]); (1, [21]); (2, [30]); (3, [31; 32]);
                   (4, [40]); (5, [50])];
     fn_inst := ex2_inst |}.

Definition ex2_inner : Loop :=
  {| loop_id := 8; loop_blocks := [3];
     getLoopPreheader := Some 2; getUniqueExitBlocks := [4] |}.

Definition ex2_outer : Loop :=
  {| loop_id := 9; loop_blocks := [1; 2; 3; 4];
     getLoopPreheader := Some 0; getUniqueExitBlocks := [5] |}.

Definition ex2_an : Analyses :=
  {| DT := {| dt_nodes := [0; 1; 2; 3; 4; 5];
              dominates := fun A B =>
                match A with Some a => a <=? B | None => false end |};
     getLoopFor := fun BB =>
       if BB =? 3 then Some 8
       else if (1 <=? BB) && (BB <=? 4) then Some 9 else None;
     isSafeToSpeculativelyExecute := fun _ => true |}.

(** The nest after the inner run and after the outer run that follows. *)
Definition ex2_fn_inner : Function :=
  {| fn_blocks := [(0, [1]); (1, [21]); (2, [31; 30]); (3, [32]);
                   (4, [40]); (5, [50])];
     fn_inst := ex2_inst |}.

Definition ex2_fn_outer : Function :=
  {| fn_blocks := [(0, [31; 1]); (1, [21]); (2, [30]); (3, [32]);
                   (4, [40]); (5, [50])];
     fn_inst := ex2_inst |}.

(* ================================================================== *)
(** * Properties *)

(** ** The safety checker *)

Lemma fold_andb_false (A : Type) (f : A -> bool) (l : list A) :
  fold_left (fun acc x => acc && f x) l false = false.
Proof.
  induction l as [|x l IH]; simpl; auto.
Qed.

Lemma dominatesExits_false (an : Analyses) (L : Loop) (F : Function)
  (I : InstId) :
  dominatesExits an L F I = false.
Proof.
  unfold dominatesExits. apply fold_andb_false.
Qed.

Lemma safeToHoist_oracle (an : Analyses) (L : Loop) (F : Function)
  (I : InstId) :
  safeToHoist an L F I = isSafeToSpeculativelyExecute an I.
Proof.
  unfold safeToHoist. rewrite dominatesExits_false. apply orb_false_r.
Qed.

(** C2: the accumulator of [dominatesExits] starts at false and is only
    conjoined with further results, so the function returns false for every
    loop and instruction, and [safeToHoist] is the speculative-execution
    oracle and nothing else. *)
Theorem safeToHoist_is_oracle (an : Analyses) (L : Loop) (F : Function)
  (I : InstId) :
  dominatesExits an L F I = false /\
  safeToHoist an L F I = isSafeToSpeculativelyExecute an I.
Proof.
  split; [apply dominatesExits_false|apply safeToHoist_oracle].
Qed.

(** C1 (the code departs from the claim): in the sample function the
    division [15] sits in block [1], which dominates the only exit block [2]
    of the loop, and it is not speculatively safe.  The claim makes it safe
    to hoist through the dominance branch; the code answers false. *)
Theorem dominating_division_rejected :
  getParent ex_fn 15 = Some 1 /\
  forallb (dominates ex_dt (Some 1)) (getUniqueExitBlocks ex_loop) = true /\
  isSafeToSpeculativelyExecute ex_an 15 = false /\
  safeToHoist ex_an ex_loop ex_fn 15 = false.
Proof.
  repeat split; reflexivity.
Qed.

(** ** The invariance classifier *)

Lemma isTerminator_not_eligible (F : Function) (I : InstId) :
  isTerminator (opcode (fn_inst F I)) = true -> checkInstructionType F I = false.
Proof.
  unfold checkInstructionType. destruct (opcode (fn_inst F I)); simpl; congruence.
Qed.

(** The operand loop is a conjunction over the operands. *)
Lemma checkOperands_forallb (L : Loop) (F : Function) (ops : list Value) :
  checkOperands L F ops =
  forallb (fun V => isConstant V || Loop_isLoopInvariant L F V) ops.
Proof.
  induction ops as [|V ops IH]; simpl; [reflexivity|].
  rewrite <- IH.
  destruct (isConstant V), (Loop_isLoopInvariant L F V); reflexivity.
Qed.

(** C4: for an instruction of an eligible opcode, [isLoopInvariant] holds
    exactly when every operand is a constant, an external definition, or the
    result of an instruction that is not in the loop in the current state of
    the function. *)
Theorem isLoopInvariant_iff_operands (L : Loop) (F : Function) (I : InstId) :
  checkInstructionType F I = true ->
  (isLoopInvariant L F I = true <->
   Forall (invariant_operand L F) (operands (fn_inst F I))).
Proof.
  intros Hty. unfold isLoopInvariant, checkInstructionOperands.
  rewrite Hty, checkOperands_forallb. simpl.
  rewrite forallb_forall, Forall_forall.
  split; intros H V HV; specialize (H V HV).
  - destruct V as [c|x|d]; simpl in *; auto.
    now apply negb_true_iff in H.
  - destruct V as [c|x|d]; simpl in *; auto.
    now rewrite H.
Qed.

Lemma isLoopInvariant_iff_operands_witness :
  checkInstructionType ex_fn 12 = true /\
  (isLoopInvariant ex_loop ex_fn_hoisted 12 = true <->
   Forall (invariant_operand ex_loop ex_fn_hoisted)
          (operands (fn_inst ex_fn_hoisted 12))).
Proof.
  split; [reflexivity|].
  apply (@isLoopInvariant_iff_operands ex_loop ex_fn_hoisted 12). reflexivity.
Defined.

(** ** The driver: what every run preserves *)

Section DriverInvariant.
Variables (an : Analyses) (L : Loop) (Destination : option InstId).
Variable Inv : HoistState -> Prop.
Hypothesis visit_keeps :
  forall I s s', Inv s -> visit an L Destination I s = Done s' -> Inv s'.

Lemma block_loop_invariant (fuel : nat) :
  forall BB it s s',
    Inv s -> block_loop fuel an L Destination BB it s = Done s' -> Inv s'.
Proof using visit_keeps.
  induction fuel as [|fuel IH]; intros BB it s s' Hs Hrun.
  - destruct it; simpl in Hrun; [discriminate|]. now inversion Hrun; subst.
  - destruct it as [Cur|]; simpl in Hrun.
    + destruct (visit an L Destination Cur s) as [s1| |] eqn:Hv;
        try discriminate.
      eapply IH; [|exact Hrun]. eapply visit_keeps; eauto.
    + now inversion Hrun; subst.
Qed.

Lemma nodes_loop_invariant (fuel : nat) (nodes : list BlockId) :
  forall s s',
    Inv s -> nodes_loop fuel an L Destination nodes s = Done s' -> Inv s'.
Proof using visit_keeps.
  induction nodes as [|BB rest IH]; intros s s' Hs Hrun; simpl in Hrun.
  - now inversion Hrun; subst.
  - destruct (negb (contains L BB) || isInSubLoop an L BB).
    + eapply IH; eauto.
    + destruct (block_loop fuel an L Destination BB (begin (hs_fn s) BB) s)
        as [s1| |] eqn:Hb; try discriminate.
      eapply IH; [|exact Hrun]. eapply block_loop_invariant; eauto.
Qed.
End DriverInvariant.

(** The body of the inner loop, case by case. *)
Lemma visit_Done_inv (an : Analyses) (L : Loop) (Destination : option InstId)
  (I : InstId) (s s' : HoistState) :
  visit an L Destination I s = Done s' ->
  (isLoopInvariant L (hs_fn s) I && safeToHoist an L (hs_fn s) I = true /\
   exists D, Destination = Some D /\
     s' = {| hs_fn := moveBefore I D (hs_fn s);
             hs_modified := true;
             hs_instructions := hs_instructions s ++ [I];
             hs_examined := hs_examined s ++ [I] |}) \/
  (isLoopInvariant L (hs_fn s) I && safeToHoist an L (hs_fn s) I = false /\
   s' = {| hs_fn := hs_fn s;
           hs_modified := hs_modified s;
           hs_instructions := hs_instructions s;
           hs_examined := hs_examined s ++ [I] |}).
Proof.
  unfold visit.
  destruct (isLoopInvariant L (hs_fn s) I && safeToHoist an L (hs_fn s) I).
  - destruct Destination as [D|]; [|discriminate].
    intros H; inversion H; subst. left. split; [reflexivity|]. now exists D.
  - intros H; inversion H; subst. now right.
Qed.

Lemma moveBefore_fn_inst (I D : InstId) (F : Function) :
  fn_inst (moveBefore I D F) = fn_inst F.
Proof.
  unfold moveBefore. now destruct (I =? D).
Qed.

Lemma moveBefore_block_ids (I D : InstId) (F : Function) :
  map fst (fn_blocks (moveBefore I D F)) = map fst (fn_blocks F).
Proof.
  unfold moveBefore. destruct (I =? D); [reflexivity|]. simpl.
  rewrite map_map. reflexivity.
Qed.

Lemma memb_true_iff (x : nat) (l : list nat) : memb x l = true <-> In x l.
Proof.
  unfold memb. rewrite existsb_exists. split.
  - intros [y [Hy He]]. apply Nat.eqb_eq in He. now subst.
  - intros H. exists x. split; [exact H|apply Nat.eqb_refl].
Qed.

Lemma memb_false_iff (x : nat) (l : list nat) : memb x l = false <-> ~ In x l.
Proof.
  rewrite <- memb_true_iff. destruct (memb x l); split; intros; easy.
Qed.

Lemma in_remove_inst (I x : InstId) (l : list InstId) :
  In x (remove_inst I l) <-> In x l /\ x <> I.
Proof.
  unfold remove_inst. rewrite filter_In, negb_true_iff, Nat.eqb_neq. tauto.
Qed.

Lemma in_insert_before (D I x : InstId) (l : list InstId) :
  In x (insert_before D I l) <-> In x l \/ (x = I /\ In D l).
Proof.
  induction l as [|y l IH]; simpl; [tauto|].
  destruct (y =? D) eqn:E.
  - apply Nat.eqb_eq in E. subst y. simpl. intuition auto.
  - apply Nat.eqb_neq in E. simpl. rewrite IH. intuition congruence.
Qed.

(** Moving [I] leaves every other instruction in its list. *)
Lemma memb_moved_list (I D J : InstId) (l : list InstId) :
  J <> I -> memb J (insert_before D I (remove_inst I l)) = memb J l.
Proof.
  intros Hne. apply eq_true_iff_eq. rewrite !memb_true_iff.
  rewrite in_insert_before, in_remove_inst. intuition congruence.
Qed.

Lemma getParent_moveBefore_other (I D J : InstId) (F : Function) :
  J <> I -> getParent (moveBefore I D F) J = getParent F J.
Proof.
  intros Hne. unfold moveBefore. destruct (I =? D); [reflexivity|].
  unfold getParent. simpl.
  induction (fn_blocks F) as [|p bl IH]; simpl; [reflexivity|].
  rewrite memb_moved_list by exact Hne.
  destruct (memb J (snd p)); simpl; [reflexivity|exact IH].
Qed.

Lemma checkInstructionType_ext (F G : Function) (I : InstId) :
  fn_inst G = fn_inst F -> checkInstructionType G I = checkInstructionType F I.
Proof.
  unfold checkInstructionType. now intros ->.
Qed.

(** C8: the flag returned by a run from an empty vector is true exactly when
    the vector of hoisted instructions it leaves behind is not empty, that
    is, when at least one instruction was moved; when the flag is false the
    function is untouched. *)
Theorem modified_iff_hoisted (fuel : nat) (an : Analyses) (L : Loop)
  (F : Function) (s : HoistState) :
  runOnLoop fuel an L F = Done s ->
  (hs_modified s = true <-> hs_instructions s <> []) /\
  (hs_modified s = false -> hs_fn s = F).
Proof.
  unfold runOnLoop, hoistInstructions.
  destruct (getLoopPreheader L) as [P|]; [|discriminate].
  intros Hrun.
  eapply nodes_loop_invariant
    with (Inv := fun s => (hs_modified s = true <-> hs_instructions s <> []) /\
                          (hs_modified s = false -> hs_fn s = F))
    in Hrun; [exact Hrun| |].
  - intros I s1 s2 Hinv Hv.
    destruct (visit_Done_inv _ _ _ _ _ _ Hv) as [[_ [D [_ ->]]]|[_ ->]]; simpl.
    + split; [|discriminate]. split; [intros _|reflexivity].
      intros E. now apply app_eq_nil in E as [_ E].
    + exact Hinv.
  - simpl. split; [|reflexivity]. split; [discriminate|congruence].
Qed.

Lemma modified_iff_hoisted_witness :
  runOnLoop 8 ex_an ex_loop ex_fn =
    Done {| hs_fn := ex_fn_hoisted; hs_modified := true;
            hs_instructions := [11; 12];
            hs_examined := [10; 11; 12; 13; 14; 15; 16; 17] |} /\
  (true = true <-> [11; 12] <> @nil nat) /\
  (true = false -> ex_fn_hoisted = ex_fn).
Proof.
  split; [reflexivity|].
  exact (modified_iff_hoisted 8 ex_an ex_loop ex_fn _ eq_refl).
Defined.

(** C10: a loop without a preheader makes the run dereference a null
    pointer on its first line; the run dies there, with the function as it
    was received, nothing examined and nothing recorded. *)
Theorem null_preheader_faults (fuel : nat) (an : Analyses) (L : Loop)
  (Instructions : list InstId) (F : Function) :
  getLoopPreheader L = None ->
  hoistInstructions fuel an L Instructions F =
    Fault {| hs_fn := F; hs_modified := false;
             hs_instructions := Instructions; hs_examined := [] |}.
Proof.
  intros H. unfold hoistInstructions. now rewrite H.
Qed.

Lemma null_preheader_faults_witness :
  getLoopPreheader ex_loop_no_preheader = None /\
  hoistInstructions 8 ex_an ex_loop_no_preheader [] ex_fn =
    Fault {| hs_fn := ex_fn; hs_modified := false;
             hs_instructions := []; hs_examined := [] |}.
Proof.
  split; [reflexivity|].
  apply (@null_preheader_faults 8 ex_an ex_loop_no_preheader [] ex_fn).
  reflexivity.
Defined.

(** A memory load is outside the eligible opcodes. *)
Lemma load_not_eligible (F : Function) (I : InstId) :
  opcode (fn_inst F I) = Load -> checkInstructionType F I = false.
Proof.
  unfold checkInstructionType. now intros ->.
Qed.

(** C3: an instruction whose opcode is outside the eligible set is never
    classified invariant, whatever its operands are; and the driver, under
    any analyses and any safety oracle, neither records it as hoisted nor
    takes it out of its block.  A load is such an instruction
    ([load_not_eligible]). *)
Theorem ineligible_opcode_never_hoisted (fuel : nat) (an : Analyses) (L : Loop)
  (F : Function) (I : InstId) (s : HoistState) :
  checkInstructionType F I = false ->
  isLoopInvariant L F I = false /\
  (runOnLoop fuel an L F = Done s ->
   ~ In I (hs_instructions s) /\ getParent (hs_fn s) I = getParent F I).
Proof.
  intros Hty. split.
  - unfold isLoopInvariant. now rewrite Hty.
  - unfold runOnLoop, hoistInstructions.
    destruct (getLoopPreheader L) as [P|]; [|discriminate].
    intros Hrun.
    eapply nodes_loop_invariant
      with (Inv := fun s => fn_inst (hs_fn s) = fn_inst F /\
                            ~ In I (hs_instructions s) /\
                            getParent (hs_fn s) I = getParent F I)
      in Hrun.
    + tauto.
    + intros J s1 s2 (Hi & Hn & Hp) Hv.
      destruct (visit_Done_inv _ _ _ _ _ _ Hv) as [[He [D [_ ->]]]|[_ ->]]; simpl.
      * apply andb_true_iff in He as [He _].
        unfold isLoopInvariant in He. apply andb_true_iff in He as [He _].
        rewrite (checkInstructionType_ext F _ J Hi) in He.
        assert (Hne : I <> J) by congruence.
        rewrite moveBefore_fn_inst, getParent_moveBefore_other by exact Hne.
        repeat split; auto.
        rewrite in_app_iff. simpl. intuition congruence.
      * auto.
    + simpl. auto.
Qed.

Lemma ineligible_opcode_never_hoisted_witness :
  opcode (fn_inst ex_fn 13) = Load /\
  isSafeToSpeculativelyExecute ex_an 13 = true /\
  checkInstructionOperands ex_loop ex_fn 13 = true /\
  isLoopInvariant ex_loop ex_fn 13 = false /\
  ~ In 13 [11; 12] /\ getParent ex_fn_hoisted 13 = getParent ex_fn 13.
Proof.
  do 3 (split; [reflexivity|]).
  destruct (@ineligible_opcode_never_hoisted 8 ex_an ex_loop ex_fn 13
              {| hs_fn := ex_fn_hoisted; hs_modified := true;
                 hs_instructions := [11; 12];
                 hs_examined := [10; 11; 12; 13; 14; 15; 16; 17] |}
              eq_refl) as [H1 H2].
  split; [exact H1|]. exact (H2 eq_refl).
Defined.

(** ** Lists of linked instructions *)

Lemma nodupb_NoDup (l : list nat) : nodupb l = true -> NoDup l.
Proof.
  induction l as [|x l IH]; simpl; intros H; constructor.
  - apply andb_true_iff in H as [H _]. apply negb_true_iff in H.
    now apply memb_false_iff.
  - apply IH. now apply andb_true_iff in H as [_ H].
Qed.

Lemma NoDup_app_inv (A : Type) (l1 l2 : list A) :
  NoDup (l1 ++ l2) ->
  NoDup l1 /\ NoDup l2 /\ forall a, In a l1 -> ~ In a l2.
Proof.
  induction l1 as [|x l1 IH]; simpl; intros H.
  - repeat split; [constructor|exact H|tauto].
  - inversion H as [|? ? Hx Hnd]; subst.
    destruct (IH Hnd) as (H1 & H2 & H3).
    repeat split; auto.
    + constructor; auto. intros Hin. apply Hx. apply in_or_app. now left.
    + intros a [->|Ha] Hin2.
      * apply Hx. apply in_or_app. now right.
      * now apply (H3 a).
Qed.

Lemma insert_before_notin (D I : InstId) (l : list InstId) :
  ~ In D l -> insert_before D I l = l.
Proof.
  induction l as [|x l IH]; simpl; intros H; [reflexivity|].
  destruct (x =? D) eqn:E.
  - apply Nat.eqb_eq in E. exfalso. apply H. now left.
  - f_equal. apply IH. tauto.
Qed.

Lemma insert_before_last (D I : InstId) (l : list InstId) :
  ~ In D l -> insert_before D I (l ++ [D]) = l ++ [I; D].
Proof.
  induction l as [|x l IH]; simpl; intros H.
  - now rewrite Nat.eqb_refl.
  - destruct (x =? D) eqn:E.
    + apply Nat.eqb_eq in E. exfalso. apply H. now left.
    + f_equal. apply IH. tauto.
Qed.

Lemma remove_inst_notin (I : InstId) (l : list InstId) :
  ~ In I l -> remove_inst I l = l.
Proof.
  induction l as [|x l IH]; simpl; intros H; [reflexivity|].
  destruct (x =? I) eqn:E; simpl.
  - apply Nat.eqb_eq in E. exfalso. apply H. now left.
  - f_equal. apply IH. tauto.
Qed.

Lemma remove_inst_app (I : InstId) (l1 l2 : list InstId) :
  remove_inst I (l1 ++ l2) = remove_inst I l1 ++ remove_inst I l2.
Proof.
  unfold remove_inst. apply filter_app.
Qed.

Lemma remove_inst_middle (I : InstId) (k r : list InstId) :
  NoDup (k ++ I :: r) -> remove_inst I (k ++ I :: r) = k ++ r.
Proof.
  intros H. apply NoDup_app_inv in H as (_ & Hr & Hd).
  inversion Hr as [|? ? HI _]; subst.
  rewrite remove_inst_app. simpl. rewrite Nat.eqb_refl. simpl.
  rewrite !remove_inst_notin; auto.
  intros Hin. apply (Hd I Hin). now left.
Qed.

Lemma next_in_app (I : InstId) (k r : list InstId) :
  ~ In I k -> next_in (k ++ I :: r) I = hd_error r.
Proof.
  induction k as [|x k IH]; simpl; intros H.
  - now rewrite Nat.eqb_refl.
  - destruct (x =? I) eqn:E.
    + apply Nat.eqb_eq in E. exfalso. apply H. now left.
    + apply IH. tauto.
Qed.

Lemma blockInsts_moveBefore (I D : InstId) (G : Function) (b : BlockId) :
  I <> D ->
  blockInsts (moveBefore I D G) b =
  insert_before D I (remove_inst I (blockInsts G b)).
Proof.
  intros Hne. unfold moveBefore.
  apply Nat.eqb_neq in Hne. rewrite Hne.
  unfold blockInsts. simpl.
  induction (fn_blocks G) as [|p bl IH]; simpl; [reflexivity|].
  destruct (fst p =? b); simpl; [reflexivity|exact IH].
Qed.

(** ** The iterator of the inner loop survives the moves

    As long as the block holds no instruction twice and does not hold the
    destination, the inner loop runs the body once for each instruction the
    block held when the loop was entered, in their order. *)

Lemma block_loop_visit_seq (fuel : nat) (an : Analyses) (L : Loop)
  (Destination : option InstId) (BB : BlockId) :
  forall rest kept s,
    blockInsts (hs_fn s) BB = kept ++ rest ->
    NoDup (kept ++ rest) ->
    (forall D, Destination = Some D -> ~ In D (kept ++ rest)) ->
    length rest <= fuel ->
    block_loop fuel an L Destination BB (hd_error rest) s =
    visit_seq an L Destination rest s.
Proof.
  induction fuel as [|fuel IH]; intros rest kept s Hb Hnd HD Hlen.
  - destruct rest; [reflexivity|simpl in Hlen; lia].
  - destruct rest as [|I rest]; [reflexivity|].
    simpl hd_error. cbn [block_loop visit_seq].
    destruct (visit an L Destination I s) as [s1|s1|] eqn:Hv; try reflexivity.
    assert (HIk : ~ In I kept).
    { apply NoDup_app_inv in Hnd as (_ & _ & Hd). intros Hin.
      apply (Hd I Hin). now left. }
    rewrite Hb, next_in_app by exact HIk.
    assert (Hnd' : NoDup (kept ++ rest)).
    { now apply NoDup_remove_1 in Hnd. }
    destruct (visit_Done_inv _ _ _ _ _ _ Hv) as [[_ [D [HDe ->]]]|[_ ->]].
    + (* moved: the block is the old one without [I] *)
      apply (IH rest kept); simpl hs_fn.
      * assert (HDI : I <> D).
        { intros <-. apply (HD I HDe). apply in_or_app. right. now left. }
        rewrite blockInsts_moveBefore, Hb by exact HDI.
        rewrite remove_inst_middle by exact Hnd.
        apply insert_before_notin.
        intros Hin. apply (HD D HDe).
        apply in_app_or in Hin as [Hin|Hin]; apply in_or_app;
          [now left|right; now right].
      * exact Hnd'.
      * intros D' HD' Hin. apply (HD D' HD').
        apply in_app_or in Hin as [Hin|Hin]; apply in_or_app;
          [now left|right; now right].
      * simpl in Hlen. lia.
    + (* kept: [I] joins the instructions left behind *)
      apply (IH rest (kept ++ [I])); simpl hs_fn.
      * rewrite Hb, <- app_assoc. reflexivity.
      * rewrite <- app_assoc. exact Hnd.
      * intros D' HD'. rewrite <- app_assoc. now apply HD.
      * simpl in Hlen. lia.
Qed.

(** ** Blocks and parents in a well-linked function *)

Lemma blockInsts_in_allInsts (F : Function) (b : BlockId) (x : InstId) :
  In x (blockInsts F b) -> In x (allInsts F).
Proof.
  unfold blockInsts, allInsts.
  induction (fn_blocks F) as [|p bl IH]; simpl; [tauto|].
  destruct (fst p =? b); intros H; apply in_or_app; [now left|right; auto].
Qed.

Lemma blockInsts_length (F : Function) (b : BlockId) :
  length (blockInsts F b) <= length (allInsts F).
Proof.
  unfold blockInsts, allInsts.
  induction (fn_blocks F) as [|p bl IH]; simpl; [lia|].
  rewrite length_app. destruct (fst p =? b); [lia|].
  etransitivity; [exact IH|lia].
Qed.

Lemma blockInsts_NoDup (F : Function) (b : BlockId) :
  NoDup (allInsts F) -> NoDup (blockInsts F b).
Proof.
  unfold blockInsts, allInsts.
  induction (fn_blocks F) as [|p bl IH]; simpl; [constructor|].
  intros H. apply NoDup_app_inv in H as (H1 & H2 & _).
  destruct (fst p =? b); auto.
Qed.

(** An instruction linked in block [b] has [b] as its parent. *)
Lemma getParent_member (F : Function) (b : BlockId) (x : InstId) :
  NoDup (allInsts F) -> In x (blockInsts F b) -> getParent F x = Some b.
Proof.
  unfold blockInsts, allInsts, getParent.
  induction (fn_blocks F) as [|p bl IH]; simpl; [tauto|].
  intros Hnd Hin. apply NoDup_app_inv in Hnd as (_ & Hnd & Hd).
  destruct (fst p =? b) eqn:E.
  - apply memb_true_iff in Hin. rewrite Hin.
    apply Nat.eqb_eq in E. now rewrite E.
  - destruct (memb x (snd p)) eqn:M.
    + exfalso. apply memb_true_iff in M. apply (Hd x M).
      clear -Hin. induction bl as [|q bl IH]; simpl in *; [tauto|].
      apply in_or_app. destruct (fst q =? b); [now left|right; auto].
    + now apply IH.
Qed.

(** The parent of an instruction is a block that holds it. *)
Lemma getParent_Some_in (G : Function) (b : BlockId) (x : InstId) :
  NoDup (map fst (fn_blocks G)) ->
  getParent G x = Some b -> In x (blockInsts G b).
Proof.
  unfold blockInsts, getParent.
  intros Hnd H.
  assert (Hs : In x (match find (fun p => fst p =? b) (fn_blocks G) with
                     | Some p => snd p | None => [] end) /\
               In b (map fst (fn_blocks G))); [|tauto].
  revert Hnd H.
  induction (fn_blocks G) as [|p bl IH]; simpl; [discriminate|].
  intros Hnd H. inversion Hnd as [|? ? Hp Hnd']; subst.
  destruct (memb x (snd p)) eqn:M.
  - inversion H; subst. rewrite Nat.eqb_refl.
    split; [now apply memb_true_iff|now left].
  - destruct (IH Hnd' H) as [H1 H2].
    destruct (fst p =? b) eqn:E.
    + apply Nat.eqb_eq in E. subst b. contradiction.
    + split; [exact H1|now right].
Qed.

Lemma getParent_None_notin (G : Function) (b : BlockId) (x : InstId) :
  getParent G x = None -> ~ In x (blockInsts G b).
Proof.
  unfold blockInsts, getParent.
  induction (fn_blocks G) as [|p bl IH]; simpl; [tauto|].
  destruct (memb x (snd p)) eqn:M; [discriminate|].
  intros H. destruct (fst p =? b); [now apply memb_false_iff|auto].
Qed.

Lemma last_terminator_shape (F : Function) (P : BlockId) (D : InstId) :
  getTerminator F P = Some D ->
  blockInsts F P = removelast (blockInsts F P) ++ [D] /\
  isTerminator (opcode (fn_inst F D)) = true.
Proof.
  unfold getTerminator. intros H.
  destruct (rev (blockInsts F P)) as [|t r] eqn:E; [discriminate|].
  destruct (isTerminator (opcode (fn_inst F t))) eqn:T; [|discriminate].
  inversion H; subst. split; [|exact T].
  apply (f_equal (@rev nat)) in E. rewrite rev_involutive in E. simpl in E.
  rewrite E. now rewrite removelast_last.
Qed.

Lemma getTerminator_last (G : Function) (b : BlockId) (l : list InstId)
  (t : InstId) :
  blockInsts G b = l ++ [t] ->
  getTerminator G b =
  if isTerminator (opcode (fn_inst G t)) then Some t else None.
Proof.
  unfold getTerminator. intros ->. now rewrite rev_unit.
Qed.

(** ** The function during a run, in closed form *)

Lemma forallb_pointwise (A : Type) (f g : A -> bool) (l : list A) :
  (forall a, f a = g a) -> forallb f l = forallb g l.
Proof.
  intros E. induction l as [|a l IH]; simpl; [reflexivity|].
  now rewrite E, IH.
Qed.

Lemma memb_app (x : nat) (l1 l2 : list nat) :
  memb x (l1 ++ l2) = memb x l1 || memb x l2.
Proof.
  unfold memb. apply existsb_app.
Qed.

Lemma filter_notin_id (H l : list InstId) :
  (forall x, In x l -> ~ In x H) ->
  filter (fun x => negb (memb x H)) l = l.
Proof.
  induction l as [|x l IH]; simpl; intros Hd; [reflexivity|].
  assert (E : memb x H = false) by (apply memb_false_iff, Hd; now left).
  rewrite E. simpl. f_equal. apply IH. intros y Hy. apply Hd. now right.
Qed.

Lemma filter_notin_nil (l : list InstId) :
  filter (fun x => negb (memb x [])) l = l.
Proof.
  apply filter_notin_id. intros x _ [].
Qed.

Lemma remove_inst_filter (H l : list InstId) (I : InstId) :
  remove_inst I (filter (fun x => negb (memb x H)) l) =
  filter (fun x => negb (memb x (H ++ [I]))) l.
Proof.
  induction l as [|x l IH]; simpl; [reflexivity|].
  rewrite memb_app. simpl. rewrite orb_false_r.
  destruct (memb x H); simpl; [exact IH|].
  destruct (x =? I); simpl; [exact IH|now rewrite IH].
Qed.

Section Representation.
Variables (an : Analyses) (L : Loop) (F : Function) (P : BlockId) (D : InstId).
Hypothesis Hids : NoDup (map fst (fn_blocks F)).
Hypothesis Hinsts : NoDup (allInsts F).
Hypothesis HP : contains L P = false.
Hypothesis Hterm : getTerminator F P = Some D.

Lemma preheader_shape : blockInsts F P = removelast (blockInsts F P) ++ [D].
Proof using Hterm.
  exact (proj1 (last_terminator_shape F P D Hterm)).
Qed.

Lemma D_in_preheader : In D (blockInsts F P).
Proof using Hterm.
  rewrite preheader_shape. apply in_or_app. right. now left.
Qed.

Lemma D_not_front : ~ In D (removelast (blockInsts F P)).
Proof using Hterm Hinsts.
  pose proof (blockInsts_NoDup F P Hinsts) as Hnd.
  rewrite preheader_shape in Hnd.
  apply NoDup_app_inv in Hnd as (_ & _ & Hd).
  intros Hin. apply (Hd D Hin). now left.
Qed.

Lemma one_block (x : InstId) (b b' : BlockId) :
  In x (blockInsts F b) -> In x (blockInsts F b') -> b = b'.
Proof using Hinsts.
  intros H1 H2.
  apply (getParent_member F b x Hinsts) in H1.
  apply (getParent_member F b' x Hinsts) in H2. congruence.
Qed.

Lemma represents_init : represents F P D [] F.
Proof using Hterm.
  split; [reflexivity|split; [reflexivity|]].
  intros b. destruct (b =? P) eqn:E.
  - apply Nat.eqb_eq in E. subst b. simpl. apply preheader_shape.
  - now rewrite filter_notin_nil.
Qed.

Lemma represents_move (H : list InstId) (G : Function) (I : InstId) :
  represents F P D H G ->
  ~ In I (blockInsts F P) -> ~ In I H -> ~ In D H ->
  represents F P D (H ++ [I]) (moveBefore I D G).
Proof using Hterm Hinsts.
  intros (Hi & Hb & Hl) HIP HIH HDH.
  assert (HID : I <> D).
  { intros ->. apply HIP, D_in_preheader. }
  repeat split.
  - now rewrite moveBefore_fn_inst.
  - now rewrite moveBefore_block_ids.
  - intros b. rewrite blockInsts_moveBefore, Hl by exact HID.
    destruct (b =? P) eqn:E.
    + rewrite remove_inst_notin.
      * rewrite app_assoc, insert_before_last.
        -- rewrite <- !app_assoc. reflexivity.
        -- intros Hin. apply in_app_or in Hin as [Hin|Hin];
             [now apply D_not_front|contradiction].
      * intros Hin. apply in_app_or in Hin as [Hin|Hin].
        -- apply HIP. rewrite preheader_shape. apply in_or_app. now left.
        -- apply in_app_or in Hin as [Hin|[Hin|[]]]; [contradiction|].
           now apply HID.
    + rewrite remove_inst_filter. apply insert_before_notin.
      intros Hin. apply filter_In in Hin as [Hin _].
      apply Nat.eqb_neq in E. apply E.
      exact (one_block D b P Hin D_in_preheader).
Qed.

(** Where the instructions are once [H] has been moved: the hoisted ones
    are outside the loop, the others are where they were. *)
Lemma containsInst_represents (H : list InstId) (G : Function) (d : InstId) :
  represents F P D H G ->
  containsInst L G d = if memb d H then false else containsInst L F d.
Proof using Hterm Hinsts Hids HP.
  intros (Hi & Hb & Hl).
  assert (HidsG : NoDup (map fst (fn_blocks G))) by now rewrite Hb.
  unfold containsInst.
  destruct (getParent G d) as [b|] eqn:EG.
  - pose proof (getParent_Some_in G b d HidsG EG) as Hin.
    rewrite Hl in Hin. destruct (b =? P) eqn:E.
    + apply Nat.eqb_eq in E. subst b. rewrite HP.
      destruct (memb d H) eqn:M; [reflexivity|].
      apply memb_false_iff in M.
      assert (HdP : In d (blockInsts F P)).
      { rewrite preheader_shape.
        apply in_app_or in Hin as [Hin|Hin]; apply in_or_app; [now left|].
        apply in_app_or in Hin as [Hin|Hin]; [contradiction|now right]. }
      now rewrite (getParent_member F P d Hinsts HdP), HP.
    + apply filter_In in Hin as [Hin M]. apply negb_true_iff in M.
      now rewrite M, (getParent_member F b d Hinsts Hin).
  - destruct (memb d H) eqn:M; [reflexivity|].
    apply memb_false_iff in M.
    destruct (getParent F d) as [b|] eqn:EF; [|reflexivity].
    exfalso. apply (getParent_None_notin G b d EG).
    pose proof (getParent_Some_in F b d Hids EF) as Hin.
    rewrite Hl. destruct (b =? P) eqn:E.
    + apply Nat.eqb_eq in E. subst b. rewrite preheader_shape in Hin.
      apply in_app_or in Hin as [Hin|Hin]; apply in_or_app; [now left|].
      right. apply in_or_app. now right.
    + apply filter_In. split; [exact Hin|].
      apply negb_true_iff. now apply memb_false_iff.
Qed.

(** The test of line 101 in the function as the run has left it. *)
Lemma eligible_represents (H : list InstId) (G : Function) (I : InstId) :
  represents F P D H G ->
  isLoopInvariant L G I && safeToHoist an L G I = eligibleAfter an L F H I.
Proof using Hterm Hinsts Hids HP.
  intros HR. pose proof HR as (Hi & _ & _).
  unfold isLoopInvariant, eligibleAfter, checkInstructionOperands.
  rewrite safeToHoist_oracle, (checkInstructionType_ext F G I Hi).
  rewrite checkOperands_forallb, Hi.
  do 2 f_equal. apply forallb_pointwise. intros [c|x|d]; simpl; try reflexivity.
  rewrite (containsInst_represents H G d HR).
  now destruct (memb d H).
Qed.

Lemma selectHoisted_incl (T H : list InstId) (x : InstId) :
  In x (selectHoisted an L F T H) -> In x H \/ In x T.
Proof.
  revert H. induction T as [|I T IH]; simpl; intros H Hin; [now left|].
  apply IH in Hin as [Hin|Hin]; [|right; now right].
  destruct (eligibleAfter an L F H I); [|now left].
  apply in_app_or in Hin as [Hin|[->|[]]]; [now left|right; now left].
Qed.

Lemma selectHoisted_app (T1 T2 H : list InstId) :
  selectHoisted an L F (T1 ++ T2) H =
  selectHoisted an L F T2 (selectHoisted an L F T1 H).
Proof.
  revert H. induction T1 as [|I T1 IH]; simpl; intros H; [reflexivity|].
  apply IH.
Qed.

(** The loop body over a list of instructions from outside the preheader,
    none of them hoisted yet. *)
Lemma visit_seq_represents :
  forall l s,
    represents F P D (hs_instructions s) (hs_fn s) ->
    NoDup l ->
    Forall (outsidePreheader F P) l ->
    Forall (outsidePreheader F P) (hs_instructions s) ->
    (forall x, In x l -> ~ In x (hs_instructions s)) ->
    exists s',
      visit_seq an L (Some D) l s = Done s' /\
      represents F P D (hs_instructions s') (hs_fn s') /\
      hs_instructions s' = selectHoisted an L F l (hs_instructions s) /\
      hs_examined s' = hs_examined s ++ l.
Proof using Hterm Hinsts Hids HP.
  induction l as [|I l IH]; intros s HR Hnd Hout HoutH Hfresh.
  - exists s. simpl. rewrite app_nil_r. auto.
  - inversion Hnd as [|? ? HIl Hnd']; subst.
    inversion Hout as [|? ? HIo Hout']; subst.
    cbn [visit_seq selectHoisted]. unfold visit.
    rewrite (eligible_represents _ _ I HR).
    destruct (eligibleAfter an L F (hs_instructions s) I) eqn:E.
    + edestruct (IH {| hs_fn := moveBefore I D (hs_fn s);
                       hs_modified := true;
                       hs_instructions := hs_instructions s ++ [I];
                       hs_examined := hs_examined s ++ [I] |})
        as (s' & H1 & H2 & H3 & H4); simpl.
      * apply represents_move; auto.
        -- apply Hfresh. now left.
        -- intros Hin. rewrite Forall_forall in HoutH.
           apply (HoutH D Hin), D_in_preheader.
      * exact Hnd'.
      * exact Hout'.
      * apply Forall_app. split; [exact HoutH|]. now constructor.
      * intros x Hx Hin. apply in_app_or in Hin as [Hin|[->|[]]].
        -- apply (Hfresh x); [now right|exact Hin].
        -- contradiction.
      * exists s'. split; [exact H1|]. split; [exact H2|].
        split; [exact H3|]. rewrite H4. simpl. now rewrite <- app_assoc.
    + edestruct (IH {| hs_fn := hs_fn s;
                       hs_modified := hs_modified s;
                       hs_instructions := hs_instructions s;
                       hs_examined := hs_examined s ++ [I] |})
        as (s' & H1 & H2 & H3 & H4); simpl; auto.
      * intros x Hx. apply Hfresh. now right.
      * exists s'. split; [exact H1|]. split; [exact H2|].
        split; [exact H3|]. rewrite H4. simpl. now rewrite <- app_assoc.
Qed.

End Representation.

(** ** A whole run, in closed form *)

Lemma skip_test_retained (an : Analyses) (L : Loop) (BB : BlockId) :
  negb (contains L BB) || isInSubLoop an L BB = negb (retained an L BB).
Proof.
  unfold retained. now rewrite negb_involutive.
Qed.

Lemma retained_in_loop (an : Analyses) (L : Loop) (BB : BlockId) :
  retained an L BB = true -> contains L BB = true.
Proof.
  unfold retained. destruct (contains L BB); simpl; congruence.
Qed.

Section RunShape.
Variables (fuel : nat) (an : Analyses) (L : Loop) (F : Function).
Variables (P : BlockId) (D : InstId).
Hypothesis Hids : NoDup (map fst (fn_blocks F)).
Hypothesis Hinsts : NoDup (allInsts F).
Hypothesis HP : contains L P = false.
Hypothesis Hterm : getTerminator F P = Some D.
Hypothesis Hfuel : length (allInsts F) <= fuel.

Lemma retained_not_preheader (BB : BlockId) :
  retained an L BB = true -> BB <> P.
Proof using HP.
  intros H ->. apply retained_in_loop in H. congruence.
Qed.

Lemma nodes_loop_represents :
  forall nodes s,
    NoDup nodes ->
    represents F P D (hs_instructions s) (hs_fn s) ->
    Forall (outsidePreheader F P) (hs_instructions s) ->
    (forall x, In x (flat_map (blockInsts F) (filter (retained an L) nodes)) ->
               ~ In x (hs_instructions s)) ->
    exists s',
      nodes_loop fuel an L (Some D) nodes s = Done s' /\
      represents F P D (hs_instructions s') (hs_fn s') /\
      hs_instructions s' =
        selectHoisted an L F
          (flat_map (blockInsts F) (filter (retained an L) nodes))
          (hs_instructions s) /\
      hs_examined s' =
        hs_examined s ++
        flat_map (blockInsts F) (filter (retained an L) nodes).
Proof using Hids Hinsts HP Hterm Hfuel.
  induction nodes as [|BB nodes IH]; intros s Hnd HR HoutH Hfresh.
  - exists s. simpl. rewrite app_nil_r. auto.
  - inversion Hnd as [|? ? HBB Hnd']; subst.
    cbn [nodes_loop]. rewrite skip_test_retained.
    destruct (retained an L BB) eqn:ER; cbn [negb].
    + (* the block is visited *)
      pose proof (retained_not_preheader BB ER) as HneP.
      assert (HT : flat_map (blockInsts F) (filter (retained an L) (BB :: nodes))
                   = blockInsts F BB ++
                     flat_map (blockInsts F) (filter (retained an L) nodes)).
      { simpl. now rewrite ER. }
      rewrite HT in Hfresh |- *. clear HT.
      assert (Hblock : blockInsts (hs_fn s) BB = blockInsts F BB).
      { pose proof HR as (_ & _ & Hl). rewrite Hl.
        apply Nat.eqb_neq in HneP as ->.
        apply filter_notin_id. intros x Hx. apply Hfresh.
        apply in_or_app. now left. }
      assert (Hout : Forall (outsidePreheader F P) (blockInsts F BB)).
      { apply Forall_forall. intros x Hx HxP. apply HneP.
        exact (one_block F Hinsts x BB P Hx HxP). }
      unfold begin. rewrite Hblock.
      rewrite (block_loop_visit_seq fuel an L (Some D) BB
                 (blockInsts F BB) [] s).
      * destruct (visit_seq_represents an L F P D Hids Hinsts HP Hterm
                    (blockInsts F BB) s HR
                    (blockInsts_NoDup F BB Hinsts) Hout HoutH)
          as (s1 & H1 & H2 & H3 & H4).
        { intros x Hx. apply Hfresh. apply in_or_app. now left. }
        rewrite H1.
        destruct (IH s1 Hnd' H2) as (s' & G1 & G2 & G3 & G4).
        -- rewrite H3. apply Forall_forall. intros x Hx.
           apply selectHoisted_incl in Hx as [Hx|Hx].
           ++ rewrite Forall_forall in HoutH. now apply HoutH.
           ++ rewrite Forall_forall in Hout. now apply Hout.
        -- intros x Hx Hin. rewrite H3 in Hin.
           apply selectHoisted_incl in Hin as [Hin|Hin].
           ++ apply (Hfresh x); [apply in_or_app; now right|exact Hin].
           ++ apply in_flat_map in Hx as (BB' & HBB' & Hx).
              apply filter_In in HBB' as [HBB' _].
              apply HBB.
              now rewrite (one_block F Hinsts x BB BB' Hin Hx).
        -- exists s'. split; [exact G1|]. split; [exact G2|].
           rewrite G3, G4, H3, H4, selectHoisted_app, app_assoc. auto.
      * simpl. exact Hblock.
      * simpl. apply blockInsts_NoDup, Hinsts.
      * intros D' HD'. inversion HD'; subst D'. simpl. intros Hin.
        apply HneP.
        exact (one_block F Hinsts D BB P Hin (D_in_preheader F P D Hterm)).
      * etransitivity; [apply blockInsts_length|exact Hfuel].
    + (* the block is skipped *)
      assert (HT : filter (retained an L) (BB :: nodes)
                   = filter (retained an L) nodes).
      { simpl. now rewrite ER. }
      rewrite HT in Hfresh |- *. now apply IH.
Qed.

End RunShape.

Lemma wellFormed_inv (an : Analyses) (L : Loop) (F : Function) :
  wellFormed an L F = true ->
  NoDup (map fst (fn_blocks F)) /\
  NoDup (allInsts F) /\
  NoDup (dt_nodes (DT an)) /\
  exists P D,
    getLoopPreheader L = Some P /\ contains L P = false /\
    getTerminator F P = Some D.
Proof.
  unfold wellFormed. intros H.
  apply andb_true_iff in H as [H H4].
  apply andb_true_iff in H as [H H3].
  apply andb_true_iff in H as [H1 H2].
  split; [now apply nodupb_NoDup|].
  split; [now apply nodupb_NoDup|].
  split; [now apply nodupb_NoDup|].
  destruct (getLoopPreheader L) as [P|]; [|discriminate].
  apply andb_true_iff in H4 as [H4 H5]. apply negb_true_iff in H4.
  destruct (getTerminator F P) as [D|] eqn:Hterm; [|discriminate].
  now exists P, D.
Qed.

Lemma traversal_NoDup (an : Analyses) (L : Loop) (F : Function) :
  NoDup (allInsts F) -> NoDup (dt_nodes (DT an)) ->
  NoDup (traversal an L F).
Proof.
  intros Hinsts Hnodes. unfold traversal, retainedNodes.
  induction (dt_nodes (DT an)) as [|BB nodes IH]; simpl; [constructor|].
  inversion Hnodes as [|? ? HBB Hnd]; subst.
  destruct (retained an L BB); [|now apply IH].
  simpl. apply NoDup_app; [now apply blockInsts_NoDup|now apply IH|].
  intros x Hx Hin. apply in_flat_map in Hin as (BB' & HBB' & Hin).
  apply filter_In in HBB' as [HBB' _]. apply HBB.
  now rewrite (one_block F Hinsts x BB BB' Hx Hin).
Qed.

(** On a well-formed input with enough fuel a run finishes; it leaves [F]
    with the hoisted instructions in front of the preheader's terminator,
    and it has entered the loop body with the traversal of [F]. *)
Lemma run_closed_form (fuel : nat) (an : Analyses) (L : Loop) (F : Function) :
  wellFormed an L F = true ->
  length (allInsts F) <= fuel ->
  exists P D s,
    getLoopPreheader L = Some P /\ contains L P = false /\
    getTerminator F P = Some D /\
    runOnLoop fuel an L F = Done s /\
    represents F P D (hs_instructions s) (hs_fn s) /\
    hs_instructions s = selectHoisted an L F (traversal an L F) [] /\
    hs_examined s = traversal an L F.
Proof.
  intros Hwf Hfuel.
  destruct (wellFormed_inv an L F Hwf)
    as (Hids & Hinsts & Hnodes & P & D & HPre & HP & Hterm).
  destruct (nodes_loop_represents fuel an L F P D Hids Hinsts HP Hterm Hfuel
              (dt_nodes (DT an))
              {| hs_fn := F; hs_modified := false;
                 hs_instructions := []; hs_examined := [] |} Hnodes)
    as (s & H1 & H2 & H3 & H4); simpl.
  - now apply represents_init.
  - constructor.
  - tauto.
  - exists P, D, s.
    split; [exact HPre|]. split; [exact HP|]. split; [exact Hterm|].
    split; [|split; [exact H2|split; [exact H3|exact H4]]].
    unfold runOnLoop, hoistInstructions. rewrite HPre, Hterm. exact H1.
Qed.

(** ** What a run selects *)

Lemma selectHoisted_grows (an : Analyses) (L : Loop) (F : Function)
  (T H : list InstId) (x : InstId) :
  In x H -> In x (selectHoisted an L F T H).
Proof.
  revert H. induction T as [|I T IH]; simpl; intros H Hin; [exact Hin|].
  apply IH. destruct (eligibleAfter an L F H I); [|exact Hin].
  apply in_or_app. now left.
Qed.

Lemma selectHoisted_eligible (an : Analyses) (L : Loop) (F : Function)
  (T H : list InstId) (x : InstId) :
  In x (selectHoisted an L F T H) ->
  In x H \/ (In x T /\ checkInstructionType F x = true).
Proof.
  revert H. induction T as [|I T IH]; simpl; intros H Hin; [now left|].
  apply IH in Hin as [Hin|[Hin Hty]]; [|right; split; [now right|exact Hty]].
  destruct (eligibleAfter an L F H I) eqn:E; [|now left].
  apply in_app_or in Hin as [Hin|[->|[]]]; [now left|right].
  split; [now left|]. unfold eligibleAfter in E.
  apply andb_true_iff in E as [E _]. now apply andb_true_iff in E as [E _].
Qed.

(** The hoisted instructions come in the order of the traversal. *)
Lemma selectHoisted_order (an : Analyses) (L : Loop) (F : Function)
  (T : list InstId) :
  forall H,
    NoDup T -> (forall x, In x T -> ~ In x H) ->
    selectHoisted an L F T H =
    H ++ filter (fun x => memb x (selectHoisted an L F T H)) T.
Proof.
  induction T as [|I T IH]; intros H Hnd Hfresh; simpl.
  - now rewrite app_nil_r.
  - inversion Hnd as [|? ? HIT Hnd']; subst.
    set (H' := if eligibleAfter an L F H I then H ++ [I] else H).
    assert (Hfresh' : forall x, In x T -> ~ In x H').
    { intros x Hx Hin. unfold H' in Hin.
      destruct (eligibleAfter an L F H I).
      - apply in_app_or in Hin as [Hin|[->|[]]]; [|contradiction].
        apply (Hfresh x); [now right|exact Hin].
      - apply (Hfresh x); [now right|exact Hin]. }
    rewrite (IH H' Hnd' Hfresh') at 1.
    unfold H'. destruct (eligibleAfter an L F H I) eqn:E.
    + assert (M : memb I (selectHoisted an L F T (H ++ [I])) = true).
      { apply memb_true_iff, selectHoisted_grows, in_or_app.
        right. now left. }
      rewrite M, <- app_assoc. reflexivity.
    + assert (M : memb I (selectHoisted an L F T H) = false).
      { apply memb_false_iff. intros Hin.
        apply selectHoisted_incl in Hin as [Hin|Hin]; [|contradiction].
        apply (Hfresh I); [now left|exact Hin]. }
      now rewrite M.
Qed.

Lemma eligibleAfter_grows (an : Analyses) (L : Loop) (F : Function)
  (H H' : list InstId) (I : InstId) :
  (forall d, In (VInstruction d) (operands (fn_inst F I)) ->
             In d H -> In d H') ->
  eligibleAfter an L F H I = true -> eligibleAfter an L F H' I = true.
Proof.
  unfold eligibleAfter. intros Hsub E.
  apply andb_true_iff in E as [E Hs]. apply andb_true_iff in E as [Ht Ho].
  rewrite Ht, Hs, andb_true_r. simpl.
  rewrite forallb_forall in Ho |- *. intros V HV. specialize (Ho V HV).
  destruct V as [c|x|d]; auto.
  apply orb_true_iff in Ho as [Ho|Ho]; apply orb_true_iff; [left|now right].
  apply memb_true_iff. apply memb_true_iff in Ho. now apply Hsub.
Qed.

Lemma selectHoisted_selected (an : Analyses) (L : Loop) (F : Function)
  (pre post H : list InstId) (I : InstId) :
  eligibleAfter an L F (selectHoisted an L F pre H) I = true ->
  In I (selectHoisted an L F (pre ++ I :: post) H).
Proof.
  intros E. rewrite selectHoisted_app. simpl. rewrite E.
  apply selectHoisted_grows, in_or_app. right. now left.
Qed.

(** ** The traversal *)

(** C5: in a run on a well-formed input, the loop body is entered with the
    instructions of the retained blocks as they stood when the run began,
    block after block in dominator-tree order and in program order within a
    block; each instruction of a retained block is examined exactly once,
    whether or not instructions before it were moved away. *)
Theorem every_instruction_examined_once (fuel : nat) (an : Analyses)
  (L : Loop) (F : Function) :
  wellFormed an L F = true ->
  length (allInsts F) <= fuel ->
  exists s,
    runOnLoop fuel an L F = Done s /\
    hs_examined s = flat_map (blockInsts F) (retainedNodes an L) /\
    forall BB I,
      In BB (dt_nodes (DT an)) -> retained an L BB = true ->
      In I (blockInsts F BB) ->
      count_occ Nat.eq_dec (hs_examined s) I = 1.
Proof.
  intros Hwf Hfuel.
  destruct (run_closed_form fuel an L F Hwf Hfuel)
    as (P & D & s & _ & _ & _ & Hrun & _ & _ & Hex).
  destruct (wellFormed_inv an L F Hwf) as (_ & Hinsts & Hnodes & _).
  exists s. split; [exact Hrun|]. split; [exact Hex|].
  intros BB I HBB HR HI. rewrite Hex.
  pose proof (traversal_NoDup an L F Hinsts Hnodes) as Hnd.
  apply (proj1 (NoDup_count_occ' Nat.eq_dec _) Hnd).
  unfold traversal, retainedNodes. apply in_flat_map. exists BB.
  split; [|exact HI]. apply filter_In. now split.
Qed.

Lemma every_instruction_examined_once_witness :
  wellFormed ex_an ex_loop ex_fn = true /\
  length (allInsts ex_fn) <= 10 /\
  exists s,
    runOnLoop 10 ex_an ex_loop ex_fn = Done s /\
    hs_examined s = flat_map (blockInsts ex_fn) (retainedNodes ex_an ex_loop) /\
    forall BB I,
      In BB (dt_nodes (DT ex_an)) -> retained ex_an ex_loop BB = true ->
      In I (blockInsts ex_fn BB) ->
      count_occ Nat.eq_dec (hs_examined s) I = 1.
Proof.
  split; [reflexivity|]. split; [simpl; lia|].
  apply (every_instruction_examined_once 10 ex_an ex_loop ex_fn).
  - reflexivity.
  - simpl. lia.
Defined.

(** ** The footprint of a run *)

Lemma blocksTerminated_shape (F : Function) (b : BlockId) :
  blocksTerminated F = true ->
  blockInsts F b = [] \/
  exists l t, blockInsts F b = l ++ [t] /\
              isTerminator (opcode (fn_inst F t)) = true.
Proof.
  unfold blocksTerminated, blockInsts. intros H.
  destruct (find (fun p => fst p =? b) (fn_blocks F)) as [p|] eqn:E;
    [|now left].
  apply find_some in E as [Hin _].
  rewrite forallb_forall in H. specialize (H p Hin).
  destruct (rev (snd p)) as [|t r] eqn:R; [discriminate|].
  right. exists (rev r), t. split; [|exact H].
  apply (f_equal (@rev nat)) in R. now rewrite rev_involutive in R.
Qed.

Lemma filter_keeps_last (f : InstId -> bool) (l : list InstId) (t : InstId) :
  f t = true -> filter f (l ++ [t]) = filter f l ++ [t].
Proof.
  intros E. rewrite filter_app. simpl. now rewrite E.
Qed.

(** C9: a run on a well-formed input whose blocks end in terminators keeps
    the blocks of the function and the successors of every block, leaves the
    instruction table (opcodes and operand references) as it was, puts the
    hoisted instructions, in order, between the old contents of the
    preheader and its terminator, and takes them, and nothing else, out of
    the other blocks without reordering what stays. *)
Theorem run_footprint (fuel : nat) (an : Analyses) (L : Loop) (F : Function) :
  wellFormed an L F = true ->
  blocksTerminated F = true ->
  length (allInsts F) <= fuel ->
  exists P D s,
    getLoopPreheader L = Some P /\ getTerminator F P = Some D /\
    runOnLoop fuel an L F = Done s /\
    map fst (fn_blocks (hs_fn s)) = map fst (fn_blocks F) /\
    (forall b, blockSuccessors (hs_fn s) b = blockSuccessors F b) /\
    fn_inst (hs_fn s) = fn_inst F /\
    blockInsts (hs_fn s) P =
      removelast (blockInsts F P) ++ hs_instructions s ++ [D] /\
    (forall b, b <> P ->
       blockInsts (hs_fn s) b =
       filter (fun x => negb (memb x (hs_instructions s))) (blockInsts F b)) /\
    incl (hs_instructions s) (traversal an L F).
Proof.
  intros Hwf Hbt Hfuel.
  destruct (run_closed_form fuel an L F Hwf Hfuel)
    as (P & D & s & HPre & HP & Hterm & Hrun & (Hi & Hb & Hl) & Hsel & _).
  exists P, D, s.
  split; [exact HPre|]. split; [exact Hterm|]. split; [exact Hrun|].
  split; [exact Hb|].
  assert (HlP : blockInsts (hs_fn s) P =
                removelast (blockInsts F P) ++ hs_instructions s ++ [D]).
  { rewrite Hl. now rewrite Nat.eqb_refl. }
  assert (HlO : forall b, b <> P ->
            blockInsts (hs_fn s) b =
            filter (fun x => negb (memb x (hs_instructions s)))
                   (blockInsts F b)).
  { intros b Hne. rewrite Hl. apply Nat.eqb_neq in Hne. now rewrite Hne. }
  split; [|split; [exact Hi|split; [exact HlP|split; [exact HlO|]]]].
  - intros b. unfold blockSuccessors. rewrite Hi. f_equal.
    destruct (Nat.eq_dec b P) as [->|Hne].
    + rewrite Hterm.
      rewrite (getTerminator_last (hs_fn s) P
                 (removelast (blockInsts F P) ++ hs_instructions s) D).
      * rewrite Hi.
        now rewrite (proj2 (last_terminator_shape F P D Hterm)).
      * rewrite HlP. now rewrite app_assoc.
    + destruct (blocksTerminated_shape F b Hbt) as [E|(l & t & E & Ht)].
      * unfold getTerminator. rewrite (HlO b Hne), E. reflexivity.
      * rewrite (getTerminator_last F b l t E).
        rewrite (getTerminator_last (hs_fn s) b
                   (filter (fun x => negb (memb x (hs_instructions s))) l) t).
        -- now rewrite Hi.
        -- rewrite (HlO b Hne), E. apply filter_keeps_last.
           apply negb_true_iff, memb_false_iff. intros Hin.
           rewrite Hsel in Hin.
           apply selectHoisted_eligible in Hin as [[]|[_ Hty]].
           rewrite (isTerminator_not_eligible F t Ht) in Hty. discriminate.
  - intros x Hx. rewrite Hsel in Hx.
    apply selectHoisted_incl in Hx as [[]|Hx]. exact Hx.
Qed.

Lemma run_footprint_witness :
  wellFormed ex_an ex_loop ex_fn = true /\
  blocksTerminated ex_fn = true /\
  length (allInsts ex_fn) <= 10 /\
  exists P D s,
    getLoopPreheader ex_loop = Some P /\ getTerminator ex_fn P = Some D /\
    runOnLoop 10 ex_an ex_loop ex_fn = Done s /\
    map fst (fn_blocks (hs_fn s)) = map fst (fn_blocks ex_fn) /\
    (forall b, blockSuccessors (hs_fn s) b = blockSuccessors ex_fn b) /\
    fn_inst (hs_fn s) = fn_inst ex_fn /\
    blockInsts (hs_fn s) P =
      removelast (blockInsts ex_fn P) ++ hs_instructions s ++ [D] /\
    (forall b, b <> P ->
       blockInsts (hs_fn s) b =
       filter (fun x => negb (memb x (hs_instructions s)))
              (blockInsts ex_fn b)) /\
    incl (hs_instructions s) (traversal ex_an ex_loop ex_fn).
Proof.
  split; [reflexivity|]. split; [reflexivity|]. split; [simpl; lia|].
  apply (run_footprint 10 ex_an ex_loop ex_fn).
  - reflexivity.
  - reflexivity.
  - simpl. lia.
Defined.

(** ** Dependent instructions *)

Lemma eligibleAfter_operands (an : Analyses) (L : Loop) (F : Function)
  (H : list InstId) (I : InstId) :
  checkInstructionType F I = true ->
  safeToHoist an L F I = true ->
  Forall (fun V => (exists d, V = VInstruction d /\ In d H) \/
                   invariant_operand L F V) (operands (fn_inst F I)) ->
  eligibleAfter an L F H I = true.
Proof.
  intros Hty Hsafe Hops. unfold eligibleAfter.
  rewrite safeToHoist_oracle in Hsafe. rewrite Hty, Hsafe, andb_true_r.
  simpl. apply forallb_forall. intros V HV.
  rewrite Forall_forall in Hops.
  destruct (Hops V HV) as [(d & -> & Hd)|Hinv].
  - apply orb_true_iff. left. now apply memb_true_iff.
  - destruct V as [c|x|d]; auto. simpl in Hinv. rewrite Hinv.
    apply orb_true_r.
Qed.

(** C6: let [u] come before [v] in the traversal of the loop, both of an
    eligible opcode and safe to hoist, the operands of [u] invariant and
    those of [v] invariant or the result of [u] (as in [u = a + b],
    [v = u * c]).  One run hoists both: the returned list holds [u] before
    [v], the preheader ends with exactly that list in front of its
    terminator, and the list is the traversal restricted to the hoisted
    instructions, that is, in the order of discovery. *)
Theorem dependent_pair_hoisted_in_order (fuel : nat) (an : Analyses)
  (L : Loop) (F : Function) (u v : InstId) (pre mid post : list InstId) :
  wellFormed an L F = true ->
  length (allInsts F) <= fuel ->
  traversal an L F = pre ++ u :: mid ++ v :: post ->
  checkInstructionType F u = true ->
  checkInstructionType F v = true ->
  safeToHoist an L F u = true ->
  safeToHoist an L F v = true ->
  Forall (invariant_operand L F) (operands (fn_inst F u)) ->
  Forall (fun V => V = VInstruction u \/ invariant_operand L F V)
         (operands (fn_inst F v)) ->
  exists P D s,
    getLoopPreheader L = Some P /\ getTerminator F P = Some D /\
    runOnLoop fuel an L F = Done s /\
    (exists h1 h2 h3, hs_instructions s = h1 ++ u :: h2 ++ v :: h3) /\
    blockInsts (hs_fn s) P =
      removelast (blockInsts F P) ++ hs_instructions s ++ [D] /\
    hs_instructions s =
      filter (fun x => memb x (hs_instructions s)) (traversal an L F).
Proof.
  intros Hwf Hfuel HT Htu Htv Hsu Hsv Hou Hov.
  destruct (run_closed_form fuel an L F Hwf Hfuel)
    as (P & D & s & HPre & HP & Hterm & Hrun & (Hi & Hb & Hl) & Hsel & _).
  destruct (wellFormed_inv an L F Hwf) as (_ & Hinsts & Hnodes & _).
  pose proof (traversal_NoDup an L F Hinsts Hnodes) as Hnd.
  assert (Hu_pre : In u (selectHoisted an L F (pre ++ u :: mid) [])).
  { apply selectHoisted_selected.
    apply eligibleAfter_operands; auto.
    eapply Forall_impl; [|exact Hou]. intros V HV. now right. }
  assert (Hu : In u (hs_instructions s)).
  { rewrite Hsel, HT.
    replace (pre ++ u :: mid ++ v :: post)
      with ((pre ++ u :: mid) ++ v :: post)
      by (rewrite <- app_assoc; reflexivity).
    rewrite selectHoisted_app. now apply selectHoisted_grows. }
  assert (Hv : In v (hs_instructions s)).
  { rewrite Hsel, HT.
    replace (pre ++ u :: mid ++ v :: post)
      with ((pre ++ u :: mid) ++ v :: post)
      by (rewrite <- app_assoc; reflexivity).
    apply selectHoisted_selected.
    apply eligibleAfter_operands; auto.
    eapply Forall_impl; [|exact Hov]. intros V [->|HV]; [left|now right].
    now exists u. }
  assert (Hord : hs_instructions s =
                 filter (fun x => memb x (hs_instructions s))
                        (traversal an L F)).
  { rewrite Hsel at 1.
    rewrite (selectHoisted_order an L F (traversal an L F) [] Hnd)
      by (intros x _ []).
    now rewrite <- Hsel. }
  exists P, D, s.
  split; [exact HPre|]. split; [exact Hterm|]. split; [exact Hrun|].
  split; [|split; [|exact Hord]].
  - exists (filter (fun x => memb x (hs_instructions s)) pre),
           (filter (fun x => memb x (hs_instructions s)) mid),
           (filter (fun x => memb x (hs_instructions s)) post).
    rewrite Hord at 1. rewrite HT.
    rewrite filter_app. cbn [filter].
    rewrite (proj2 (memb_true_iff u _) Hu).
    rewrite filter_app. cbn [filter].
    now rewrite (proj2 (memb_true_iff v _) Hv).
  - rewrite Hl. now rewrite Nat.eqb_refl.
Qed.

Lemma dependent_pair_hoisted_in_order_witness :
  opcode (fn_inst ex_fn 11) = Add /\ opcode (fn_inst ex_fn 12) = Mul /\
  operands (fn_inst ex_fn 12) = [VInstruction 11; VExternal 2] /\
  exists P D s,
    getLoopPreheader ex_loop = Some P /\ getTerminator ex_fn P = Some D /\
    runOnLoop 10 ex_an ex_loop ex_fn = Done s /\
    (exists h1 h2 h3, hs_instructions s = h1 ++ 11 :: h2 ++ 12 :: h3) /\
    blockInsts (hs_fn s) P =
      removelast (blockInsts ex_fn P) ++ hs_instructions s ++ [D] /\
    hs_instructions s =
      filter (fun x => memb x (hs_instructions s))
             (traversal ex_an ex_loop ex_fn).
Proof.
  do 3 (split; [reflexivity|]).
  apply (dependent_pair_hoisted_in_order 10 ex_an ex_loop ex_fn 11 12
           [10] [] [13; 14; 15; 16; 17]).
  - reflexivity.
  - simpl. lia.
  - reflexivity.
  - reflexivity.
  - reflexivity.
  - reflexivity.
  - reflexivity.
  - repeat constructor.
  - constructor; [now left|]. constructor; [right; exact I|constructor].
Defined.

(** ** Running the pass again *)

Lemma visit_seq_idle (an : Analyses) (L : Loop) (Destination : option InstId) :
  forall l s,
    (forall I, In I l ->
       isLoopInvariant L (hs_fn s) I && safeToHoist an L (hs_fn s) I = false) ->
    visit_seq an L Destination l s =
    Done {| hs_fn := hs_fn s;
            hs_modified := hs_modified s;
            hs_instructions := hs_instructions s;
            hs_examined := hs_examined s ++ l |}.
Proof.
  induction l as [|I l IH]; intros s Hno.
  - simpl. rewrite app_nil_r. now destruct s.
  - cbn [visit_seq]. unfold visit. rewrite (Hno I) by now left.
    rewrite IH; simpl.
    + now rewrite <- app_assoc.
    + intros J HJ. apply Hno. now right.
Qed.

(** A run over blocks without an eligible instruction changes nothing. *)
Lemma nodes_loop_idle (fuel : nat) (an : Analyses) (L : Loop)
  (Destination : option InstId) (G : Function) :
  forall nodes s,
    hs_fn s = G ->
    (forall BB, In BB nodes -> retained an L BB = true ->
       NoDup (blockInsts G BB) /\
       (forall D, Destination = Some D -> ~ In D (blockInsts G BB)) /\
       length (blockInsts G BB) <= fuel /\
       forall I, In I (blockInsts G BB) ->
         isLoopInvariant L G I && safeToHoist an L G I = false) ->
    nodes_loop fuel an L Destination nodes s =
    Done {| hs_fn := G;
            hs_modified := hs_modified s;
            hs_instructions := hs_instructions s;
            hs_examined :=
              hs_examined s ++
              flat_map (blockInsts G) (filter (retained an L) nodes) |}.
Proof.
  induction nodes as [|BB nodes IH]; intros s HG Hall.
  - simpl. rewrite app_nil_r. subst G. now destruct s.
  - cbn [nodes_loop filter]. rewrite skip_test_retained.
    destruct (retained an L BB) eqn:ER; cbn [negb flat_map].
    + destruct (Hall BB (or_introl eq_refl) ER) as (Hnd & HD & Hlen & Hno).
      unfold begin. rewrite HG.
      rewrite (block_loop_visit_seq fuel an L Destination BB
                 (blockInsts G BB) [] s); simpl; auto.
      * rewrite visit_seq_idle by (rewrite HG; exact Hno).
        rewrite IH; simpl; auto.
        -- now rewrite <- app_assoc.
        -- intros BB' HBB'. apply Hall. now right.
      * now rewrite HG.
    + apply IH; auto. intros BB' HBB'. apply Hall. now right.
Qed.

(** After a run over [T] from [H0], an instruction of [T] that was left
    behind fails the test of line 101 in the function the run produced,
    provided definitions come before their uses. *)
Lemma rejected_stays_rejected (an : Analyses) (L : Loop) (F : Function) :
  forall T H0,
    NoDup T -> (forall x, In x T -> ~ In x H0) ->
    defsBeforeUses F T = true ->
    forall I, In I T -> ~ In I (selectHoisted an L F T H0) ->
      eligibleAfter an L F (selectHoisted an L F T H0) I = false.
Proof.
  induction T as [|J T IH]; intros H0 Hnd Hfresh Hssa I HI Hrej;
    [contradiction|].
  inversion Hnd as [|? ? HJT Hnd']; subst.
  simpl in Hssa. apply andb_true_iff in Hssa as [HssaJ Hssa].
  destruct HI as [->|HI].
  - (* the head of the traversal *)
    destruct (eligibleAfter an L F (selectHoisted an L F (I :: T) H0) I)
      eqn:E; [exfalso|reflexivity].
    assert (Hty : checkInstructionType F I = true).
    { unfold eligibleAfter in E. apply andb_true_iff in E as [E _].
      now apply andb_true_iff in E as [E _]. }
    rewrite Hty in HssaJ. simpl in HssaJ. rewrite forallb_forall in HssaJ.
    assert (E0 : eligibleAfter an L F H0 I = true).
    { apply (eligibleAfter_grows an L F
               (selectHoisted an L F (I :: T) H0) H0 I); [|exact E].
      intros d Hd Hin. pose proof Hin as Hfin.
      apply selectHoisted_incl in Hin as [Hin|[<-|Hin]];
        [exact Hin|contradiction|].
      specialize (HssaJ _ Hd). simpl in HssaJ.
      apply negb_true_iff, memb_false_iff in HssaJ. contradiction. }
    apply Hrej. simpl. rewrite E0.
    apply selectHoisted_grows, in_or_app. right. now left.
  - (* an instruction further down *)
    simpl in Hrej |- *. apply IH; auto.
    intros x Hx Hin. destruct (eligibleAfter an L F H0 J).
    + apply in_app_or in Hin as [Hin|[->|[]]]; [|contradiction].
      apply (Hfresh x); [now right|exact Hin].
    + apply (Hfresh x); [now right|exact Hin].
Qed.

(** C7: on a well-formed input in which definitions come before their uses
    along the traversal, a second run right after a first one returns
    [Modified = false] and an empty list, and leaves the function as the
    first run left it. *)
Theorem second_run_hoists_nothing (fuel : nat) (an : Analyses) (L : Loop)
  (F : Function) (s1 : HoistState) :
  wellFormed an L F = true ->
  defsBeforeUses F (traversal an L F) = true ->
  length (allInsts F) <= fuel ->
  runOnLoop fuel an L F = Done s1 ->
  runOnLoop fuel an L (hs_fn s1) =
    Done {| hs_fn := hs_fn s1;
            hs_modified := false;
            hs_instructions := [];
            hs_examined := traversal an L (hs_fn s1) |}.
Proof.
  intros Hwf Hssa Hfuel Hrun1.
  destruct (run_closed_form fuel an L F Hwf Hfuel)
    as (P & D & s & HPre & HP & Hterm & Hrun & HR & Hsel & _).
  rewrite Hrun in Hrun1. inversion Hrun1; subst s1. clear Hrun1.
  destruct (wellFormed_inv an L F Hwf) as (Hids & Hinsts & Hnodes & _).
  pose proof (traversal_NoDup an L F Hinsts Hnodes) as Hnd.
  pose proof HR as (Hi & Hb & Hl).
  assert (HtermG : getTerminator (hs_fn s) P = Some D).
  { rewrite (getTerminator_last (hs_fn s) P
               (removelast (blockInsts F P) ++ hs_instructions s) D).
    - now rewrite Hi, (proj2 (last_terminator_shape F P D Hterm)).
    - rewrite Hl, Nat.eqb_refl. now rewrite app_assoc. }
  unfold runOnLoop, hoistInstructions. rewrite HPre, HtermG.
  rewrite (nodes_loop_idle fuel an L (Some D) (hs_fn s)); [reflexivity..|].
  intros BB HBB ER.
  assert (HneP : BB <> P).
  { intros ->. apply retained_in_loop in ER. congruence. }
  assert (HlBB : blockInsts (hs_fn s) BB =
                 filter (fun x => negb (memb x (hs_instructions s)))
                        (blockInsts F BB)).
  { rewrite Hl. apply Nat.eqb_neq in HneP. now rewrite HneP. }
  rewrite HlBB. repeat split.
  - apply NoDup_filter, blockInsts_NoDup, Hinsts.
  - intros D' HD' Hin. inversion HD'; subst D'.
    apply filter_In in Hin as [Hin _]. apply HneP.
    exact (one_block F Hinsts D BB P Hin (D_in_preheader F P D Hterm)).
  - etransitivity; [apply filter_length_le|].
    etransitivity; [apply blockInsts_length|exact Hfuel].
  - intros I HI. apply filter_In in HI as [HI Hrej].
    apply negb_true_iff, memb_false_iff in Hrej.
    rewrite (eligible_represents an L F P D Hids Hinsts HP Hterm _ _ I HR).
    rewrite Hsel in Hrej |- *.
    apply rejected_stays_rejected; auto.
    unfold traversal, retainedNodes. apply in_flat_map. exists BB.
    split; [|exact HI]. apply filter_In. now split.
Qed.

Lemma second_run_hoists_nothing_witness :
  wellFormed ex_an ex_loop ex_fn = true /\
  defsBeforeUses ex_fn (traversal ex_an ex_loop ex_fn) = true /\
  length (allInsts ex_fn) <= 10 /\
  runOnLoop 10 ex_an ex_loop ex_fn =
    Done {| hs_fn := ex_fn_hoisted; hs_modified := true;
            hs_instructions := [11; 12];
            hs_examined := [10; 11; 12; 13; 14; 15; 16; 17] |} /\
  runOnLoop 10 ex_an ex_loop ex_fn_hoisted =
    Done {| hs_fn := ex_fn_hoisted; hs_modified := false;
            hs_instructions := [];
            hs_examined := [10; 13; 14; 15; 16; 17] |}.
Proof.
  split; [reflexivity|]. split; [reflexivity|]. split; [simpl; lia|].
  split; [reflexivity|].
  apply (second_run_hoists_nothing 10 ex_an ex_loop ex_fn
           {| hs_fn := ex_fn_hoisted; hs_modified := true;
              hs_instructions := [11; 12];
              hs_examined := [10; 11; 12; 13; 14; 15; 16; 17] |}).
  - reflexivity.
  - reflexivity.
  - simpl. lia.
  - reflexivity.
Defined.

(* ================================================================== *)
(** * Further properties of the driver *)

(** ** Runs that die *)

Lemma visit_Fault_inv (an : Analyses) (L : Loop) (Destination : option InstId)
  (I : InstId) (s s' : HoistState) :
  visit an L Destination I s = Fault s' ->
  Destination = None /\
  isLoopInvariant L (hs_fn s) I && safeToHoist an L (hs_fn s) I = true /\
  s' = {| hs_fn := hs_fn s;
          hs_modified := true;
          hs_instructions := hs_instructions s;
          hs_examined := hs_examined s ++ [I] |}.
Proof.
  unfold visit.
  destruct (isLoopInvariant L (hs_fn s) I && safeToHoist an L (hs_fn s) I);
    [|discriminate].
  destruct Destination as [D|]; [discriminate|].
  intros H. inversion H; subst. auto.
Qed.

Lemma visit_never_out_of_fuel (an : Analyses) (L : Loop)
  (Destination : option InstId) (I : InstId) (s : HoistState) :
  visit an L Destination I s <> OutOfFuel.
Proof.
  unfold visit.
  destruct (isLoopInvariant L (hs_fn s) I && safeToHoist an L (hs_fn s) I);
    [destruct Destination|]; discriminate.
Qed.

Section FaultInvariant.
Variables (an : Analyses) (L : Loop) (Destination : option InstId).
Variables Inv Post : HoistState -> Prop.
Hypothesis visit_keeps :
  forall I s s', Inv s -> visit an L Destination I s = Done s' -> Inv s'.
Hypothesis visit_dies :
  forall I s s', Inv s -> visit an L Destination I s = Fault s' -> Post s'.

Lemma block_loop_fault (fuel : nat) :
  forall BB it s s',
    Inv s -> block_loop fuel an L Destination BB it s = Fault s' -> Post s'.
Proof using visit_keeps visit_dies.
  induction fuel as [|fuel IH]; intros BB it s s' Hs Hrun.
  - destruct it; simpl in Hrun; discriminate.
  - destruct it as [Cur|]; simpl in Hrun; [|discriminate].
    destruct (visit an L Destination Cur s) as [s1|s1|] eqn:Hv;
      try discriminate.
    + eapply IH; [|exact Hrun]. eapply visit_keeps; eauto.
    + inversion Hrun; subst. eapply visit_dies; eauto.
Qed.

Lemma nodes_loop_fault (fuel : nat) (nodes : list BlockId) :
  forall s s',
    Inv s -> nodes_loop fuel an L Destination nodes s = Fault s' -> Post s'.
Proof using visit_keeps visit_dies.
  induction nodes as [|BB rest IH]; intros s s' Hs Hrun; simpl in Hrun.
  - discriminate.
  - destruct (negb (contains L BB) || isInSubLoop an L BB).
    + eapply IH; eauto.
    + destruct (block_loop fuel an L Destination BB (begin (hs_fn s) BB) s)
        as [s1|s1|] eqn:Hb; try discriminate.
      * eapply IH; [|exact Hrun].
        eapply (block_loop_invariant an L Destination Inv visit_keeps); eauto.
      * inversion Hrun; subst. eapply block_loop_fault; eauto.
Qed.
End FaultInvariant.

(** X2: a run dies only on line 85 (no preheader) or at a move into a
    preheader that has no terminator, and whenever it dies the function is
    exactly as it was received and nothing has been recorded as hoisted. *)
Theorem fault_leaves_function_untouched (fuel : nat) (an : Analyses)
  (L : Loop) (F : Function) (s : HoistState) :
  runOnLoop fuel an L F = Fault s ->
  hs_fn s = F /\ hs_instructions s = [] /\
  (getLoopPreheader L = None \/
   exists P, getLoopPreheader L = Some P /\ getTerminator F P = None).
Proof.
  unfold runOnLoop, hoistInstructions.
  destruct (getLoopPreheader L) as [P|].
  - intros Hrun.
    destruct (getTerminator F P) as [D|] eqn:Hterm.
    + exfalso.
      eapply (nodes_loop_fault an L (Some D)
                (fun _ => True) (fun _ => False)); eauto.
      intros I s1 s2 _ Hv.
      now destruct (visit_Fault_inv _ _ _ _ _ _ Hv) as [Hd _].
    + assert (Hpost : hs_fn s = F /\ hs_instructions s = []).
      { refine (nodes_loop_fault an L None
                  (fun s => hs_fn s = F /\ hs_instructions s = [])
                  (fun s => hs_fn s = F /\ hs_instructions s = [])
                  _ _ fuel (dt_nodes (DT an)) _ s _ Hrun).
        - intros I s1 s2 Hinv Hv.
          destruct (visit_Done_inv _ _ _ _ _ _ Hv)
            as [[_ [D [Hd _]]]|[_ ->]]; [discriminate|exact Hinv].
        - intros I s1 s2 Hinv Hv.
          destruct (visit_Fault_inv _ _ _ _ _ _ Hv) as (_ & _ & ->).
          exact Hinv.
        - simpl. auto. }
      destruct Hpost as [H1 H2].
      split; [exact H1|]. split; [exact H2|]. right. now exists P.
  - intros H. inversion H; subst. simpl. auto.
Qed.

Lemma fault_leaves_function_untouched_witness :
  runOnLoop 10 ex_an ex_loop ex_fn_open =
    Fault {| hs_fn := ex_fn_open; hs_modified := true;
             hs_instructions := []; hs_examined := [10; 11] |} /\
  ex_fn_open = ex_fn_open /\ @nil nat = [] /\
  (getLoopPreheader ex_loop = None \/
   exists P, getLoopPreheader ex_loop = Some P /\
             getTerminator ex_fn_open P = None).
Proof.
  split; [reflexivity|].
  exact (fault_leaves_function_untouched 10 ex_an ex_loop ex_fn_open
           _ eq_refl).
Defined.

(** X3: with a preheader that does not end in a terminator, a run that
    finishes has moved nothing: it returns false, an empty list and the
    function it was given. *)
Theorem no_terminator_no_change (fuel : nat) (an : Analyses) (L : Loop)
  (F : Function) (P : BlockId) (s : HoistState) :
  getLoopPreheader L = Some P ->
  getTerminator F P = None ->
  runOnLoop fuel an L F = Done s ->
  hs_fn s = F /\ hs_modified s = false /\ hs_instructions s = [].
Proof.
  unfold runOnLoop, hoistInstructions. intros -> -> Hrun.
  refine (nodes_loop_invariant an L None
            (fun s => hs_fn s = F /\ hs_modified s = false /\
                      hs_instructions s = [])
            _ fuel (dt_nodes (DT an)) _ s _ Hrun).
  - intros I s1 s2 Hinv Hv.
    destruct (visit_Done_inv _ _ _ _ _ _ Hv) as [[_ [D [Hd _]]]|[_ ->]];
      [discriminate|exact Hinv].
  - simpl. auto.
Qed.

Lemma no_terminator_no_change_witness :
  getLoopPreheader ex_loop = Some 0 /\
  getTerminator ex_fn_open 0 = None /\
  runOnLoop 10 ex_an_strict ex_loop ex_fn_open =
    Done {| hs_fn := ex_fn_open; hs_modified := false;
            hs_instructions := [];
            hs_examined := [10; 11; 12; 13; 14; 15; 16; 17] |} /\
  ex_fn_open = ex_fn_open /\ false = false /\ @nil nat = [].
Proof.
  do 3 (split; [reflexivity|]).
  exact (no_terminator_no_change 10 ex_an_strict ex_loop ex_fn_open 0 _
           eq_refl eq_refl eq_refl).
Defined.

(** X1: every instruction a run records as hoisted has an eligible opcode
    and is accepted by the speculative-execution oracle; dominance over the
    exit blocks never lets an instruction through. *)
Theorem hoisted_pass_both_tests (fuel : nat) (an : Analyses) (L : Loop)
  (F : Function) (s : HoistState) :
  runOnLoop fuel an L F = Done s ->
  Forall (fun I => checkInstructionType F I = true /\
                   isSafeToSpeculativelyExecute an I = true)
         (hs_instructions s).
Proof.
  unfold runOnLoop, hoistInstructions.
  destruct (getLoopPreheader L) as [P|]; [|discriminate].
  intros Hrun.
  apply (nodes_loop_invariant an L (getTerminator F P)
           (fun s => fn_inst (hs_fn s) = fn_inst F /\
              Forall (fun I => checkInstructionType F I = true /\
                               isSafeToSpeculativelyExecute an I = true)
                     (hs_instructions s))) in Hrun; [tauto| |].
  - intros I s1 s2 [Hi Hall] Hv.
    destruct (visit_Done_inv _ _ _ _ _ _ Hv) as [[He [D [_ ->]]]|[_ ->]];
      simpl; [|auto].
    rewrite moveBefore_fn_inst. split; [exact Hi|].
    apply Forall_app. split; [exact Hall|]. constructor; [|constructor].
    apply andb_true_iff in He as [Hinv Hsafe].
    rewrite safeToHoist_oracle in Hsafe. split; [|exact Hsafe].
    unfold isLoopInvariant in Hinv. apply andb_true_iff in Hinv as [Hty _].
    now rewrite (checkInstructionType_ext F _ I Hi) in Hty.
  - simpl. split; [reflexivity|constructor].
Qed.

Lemma hoisted_pass_both_tests_witness :
  runOnLoop 10 ex_an ex_loop ex_fn =
    Done {| hs_fn := ex_fn_hoisted; hs_modified := true;
            hs_instructions := [11; 12];
            hs_examined := [10; 11; 12; 13; 14; 15; 16; 17] |} /\
  Forall (fun I => checkInstructionType ex_fn I = true /\
                   isSafeToSpeculativelyExecute ex_an I = true) [11; 12].
Proof.
  split; [reflexivity|].
  exact (hoisted_pass_both_tests 10 ex_an ex_loop ex_fn _ eq_refl).
Defined.

(** ** Where the hoisted instructions end up *)

Lemma getParent_hoisted (F : Function) (P : BlockId) (D : InstId)
  (H : list InstId) (G : Function) (I : InstId) :
  NoDup (map fst (fn_blocks F)) ->
  represents F P D H G -> In I H -> getParent G I = Some P.
Proof.
  intros Hids (Hi & Hb & Hl) HI.
  assert (HidsG : NoDup (map fst (fn_blocks G))) by now rewrite Hb.
  assert (HinP : In I (blockInsts G P)).
  { rewrite Hl, Nat.eqb_refl. apply in_or_app. right.
    apply in_or_app. now left. }
  destruct (getParent G I) as [b|] eqn:E.
  - pose proof (getParent_Some_in G b I HidsG E) as Hin.
    rewrite Hl in Hin. destruct (b =? P) eqn:EP.
    + apply Nat.eqb_eq in EP. now subst.
    + apply filter_In in Hin as [_ Hn].
      apply negb_true_iff, memb_false_iff in Hn. contradiction.
  - exfalso. exact (getParent_None_notin G P I E HinP).
Qed.

(** X4: after a run on a well-formed input every hoisted instruction is
    linked in the preheader and is no longer a member of the loop. *)
Theorem hoisted_leave_the_loop (fuel : nat) (an : Analyses) (L : Loop)
  (F : Function) (P : BlockId) (s : HoistState) :
  wellFormed an L F = true ->
  length (allInsts F) <= fuel ->
  getLoopPreheader L = Some P ->
  runOnLoop fuel an L F = Done s ->
  forall I, In I (hs_instructions s) ->
    getParent (hs_fn s) I = Some P /\ containsInst L (hs_fn s) I = false.
Proof.
  intros Hwf Hfuel HPre Hrun I HI.
  destruct (run_closed_form fuel an L F Hwf Hfuel)
    as (P' & D & s' & HPre' & HP & Hterm & Hrun' & HR & _ & _).
  rewrite Hrun in Hrun'. inversion Hrun'; subst s'.
  rewrite HPre in HPre'. inversion HPre'; subst P'.
  destruct (wellFormed_inv an L F Hwf) as (Hids & _).
  pose proof (getParent_hoisted F P D _ _ I Hids HR HI) as Hpar.
  split; [exact Hpar|]. unfold containsInst. now rewrite Hpar.
Qed.

Lemma hoisted_leave_the_loop_witness :
  wellFormed ex_an ex_loop ex_fn = true /\
  length (allInsts ex_fn) <= 10 /\
  getParent ex_fn 12 = Some 1 /\
  getParent ex_fn_hoisted 12 = Some 0 /\
  containsInst ex_loop ex_fn_hoisted 12 = false.
Proof.
  do 3 (split; [first [reflexivity|simpl; lia]|]).
  apply (hoisted_leave_the_loop 10 ex_an ex_loop ex_fn 0
           {| hs_fn := ex_fn_hoisted; hs_modified := true;
              hs_instructions := [11; 12];
              hs_examined := [10; 11; 12; 13; 14; 15; 16; 17] |}).
  - reflexivity.
  - simpl. lia.
  - reflexivity.
  - reflexivity.
  - simpl. tauto.
Defined.

(** ** Dependencies among the hoisted instructions *)




(** ** Which instructions are hoisted *)

Lemma selectHoisted_passes (an : Analyses) (L : Loop) (F : Function)
  (T : list InstId) :
  forall H I,
    In I (selectHoisted an L F T H) ->
    In I H \/ eligibleAfter an L F (selectHoisted an L F T H) I = true.
Proof.
  induction T as [|J T IH]; intros H I HI; simpl in *; [now left|].
  apply IH in HI as [HI|HI]; [|now right].
  destruct (eligibleAfter an L F H J) eqn:E; [|now left].
  apply in_app_or in HI as [HI|[->|[]]]; [now left|right].
  apply (eligibleAfter_grows an L F H); [|exact E].
  intros d _ Hd. apply selectHoisted_grows, in_or_app. now left.
Qed.

(** X5: on a well-formed input in which definitions come before their uses
    along the traversal, an instruction of the traversal is hoisted exactly
    when it passes the test of line 101 in the function the run returns:
    the run stops at a fixed point of its own test. *)
Theorem hoisted_iff_test_holds_after (fuel : nat) (an : Analyses) (L : Loop)
  (F : Function) (s : HoistState) (I : InstId) :
  wellFormed an L F = true ->
  defsBeforeUses F (traversal an L F) = true ->
  length (allInsts F) <= fuel ->
  runOnLoop fuel an L F = Done s ->
  In I (traversal an L F) ->
  (In I (hs_instructions s) <->
   isLoopInvariant L (hs_fn s) I && safeToHoist an L (hs_fn s) I = true).
Proof.
  intros Hwf Hssa Hfuel Hrun HI.
  destruct (run_closed_form fuel an L F Hwf Hfuel)
    as (P & D & s' & _ & HP & Hterm & Hrun' & HR & Hsel & _).
  rewrite Hrun in Hrun'. inversion Hrun'; subst s'.
  destruct (wellFormed_inv an L F Hwf) as (Hids & Hinsts & Hnodes & _).
  rewrite (eligible_represents an L F P D Hids Hinsts HP Hterm _ _ I HR).
  rewrite Hsel. split.
  - intros Hin. now apply selectHoisted_passes in Hin as [[]|Hin].
  - intros E.
    destruct (in_dec Nat.eq_dec I (selectHoisted an L F (traversal an L F) []))
      as [Hin|Hout]; [exact Hin|exfalso].
    rewrite (rejected_stays_rejected an L F (traversal an L F) []) in E;
      auto; [discriminate|].
    now apply traversal_NoDup.
Qed.

Lemma hoisted_iff_test_holds_after_witness :
  wellFormed ex_an ex_loop ex_fn = true /\
  defsBeforeUses ex_fn (traversal ex_an ex_loop ex_fn) = true /\
  length (allInsts ex_fn) <= 10 /\
  In 16 (traversal ex_an ex_loop ex_fn) /\
  (In 16 [11; 12] <->
   isLoopInvariant ex_loop ex_fn_hoisted 16 &&
   safeToHoist ex_an ex_loop ex_fn_hoisted 16 = true).
Proof.
  do 4 (split; [first [reflexivity|simpl; lia|simpl; tauto]|]).
  apply (hoisted_iff_test_holds_after 10 ex_an ex_loop ex_fn
           {| hs_fn := ex_fn_hoisted; hs_modified := true;
              hs_instructions := [11; 12];
              hs_examined := [10; 11; 12; 13; 14; 15; 16; 17] |} 16).
  - reflexivity.
  - reflexivity.
  - simpl. lia.
  - reflexivity.
  - simpl. tauto.
Defined.

Lemma isLoopInvariant_operands_Forall (L : Loop) (F : Function) (I : InstId) :
  checkInstructionType F I = true ->
  (isLoopInvariant L F I = true <->
   Forall (invariant_operand L F) (operands (fn_inst F I))).
Proof.
  intros Hty. unfold isLoopInvariant, checkInstructionOperands.
  rewrite Hty, checkOperands_forallb. simpl.
  rewrite forallb_forall, Forall_forall.
  split; intros H V HV; specialize (H V HV);
    destruct V as [c|x|d]; simpl in *; auto.
  - now apply negb_true_iff in H.
  - now rewrite H.
Qed.

Lemma modified_flag_sound (fuel : nat) (an : Analyses) (L : Loop)
  (F : Function) (s : HoistState) :
  runOnLoop fuel an L F = Done s ->
  (hs_modified s = true <-> hs_instructions s <> []).
Proof.
  unfold runOnLoop, hoistInstructions.
  destruct (getLoopPreheader L) as [P|]; [|discriminate].
  intros Hrun.
  refine (nodes_loop_invariant an L (getTerminator F P)
            (fun s => hs_modified s = true <-> hs_instructions s <> [])
            _ fuel (dt_nodes (DT an)) _ s _ Hrun).
  - intros I s1 s2 Hinv Hv.
    destruct (visit_Done_inv _ _ _ _ _ _ Hv) as [[_ [D [_ ->]]]|[_ ->]]; simpl.
    + split; [intros _|reflexivity].
      intros E. now apply app_eq_nil in E as [_ E].
    + exact Hinv.
  - simpl. split; [discriminate|congruence].
Qed.

(** X7: on a well-formed input, an instruction of the traversal that has an
    eligible opcode, is safe to hoist and has only invariant operands before
    the run is hoisted by the run. *)
Theorem invariant_instruction_is_hoisted (fuel : nat) (an : Analyses)
  (L : Loop) (F : Function) (s : HoistState) (I : InstId) :
  wellFormed an L F = true ->
  length (allInsts F) <= fuel ->
  runOnLoop fuel an L F = Done s ->
  In I (traversal an L F) ->
  isLoopInvariant L F I = true ->
  safeToHoist an L F I = true ->
  In I (hs_instructions s) /\ hs_modified s = true.
Proof.
  intros Hwf Hfuel Hrun HI Hinv Hsafe.
  destruct (run_closed_form fuel an L F Hwf Hfuel)
    as (P & D & s' & _ & _ & _ & Hrun' & _ & Hsel & _).
  rewrite Hrun in Hrun'. inversion Hrun'; subst s'.
  assert (Hin : In I (hs_instructions s)).
  { rewrite Hsel. apply in_split in HI as (pre & post & ->).
    apply selectHoisted_selected.
    pose proof Hinv as Hinv'. unfold isLoopInvariant in Hinv'.
    apply andb_true_iff in Hinv' as [Hty _].
    apply eligibleAfter_operands; auto.
    apply (proj1 (isLoopInvariant_operands_Forall L F I Hty)) in Hinv.
    eapply Forall_impl; [|exact Hinv]. intros V HV. now right. }
  split; [exact Hin|].
  apply (proj2 (modified_flag_sound fuel an L F s Hrun)).
  intros E. rewrite E in Hin. contradiction.
Qed.

Lemma invariant_instruction_is_hoisted_witness :
  wellFormed ex_an ex_loop ex_fn = true /\
  length (allInsts ex_fn) <= 10 /\
  In 11 (traversal ex_an ex_loop ex_fn) /\
  isLoopInvariant ex_loop ex_fn 11 = true /\
  safeToHoist ex_an ex_loop ex_fn 11 = true /\
  In 11 [11; 12] /\ true = true.
Proof.
  do 5 (split; [first [reflexivity|simpl; lia|simpl; tauto]|]).
  apply (invariant_instruction_is_hoisted 10 ex_an ex_loop ex_fn
           {| hs_fn := ex_fn_hoisted; hs_modified := true;
              hs_instructions := [11; 12];
              hs_examined := [10; 11; 12; 13; 14; 15; 16; 17] |} 11).
  - reflexivity.
  - simpl. lia.
  - reflexivity.
  - simpl. tauto.
  - reflexivity.
  - reflexivity.
Defined.

(** X11: on a well-formed input in which no instruction of the traversal
    passes the test of line 101, a run examines the whole traversal and
    returns false, an empty list and the function unchanged. *)
Theorem nothing_eligible_nothing_done (fuel : nat) (an : Analyses) (L : Loop)
  (F : Function) :
  wellFormed an L F = true ->
  length (allInsts F) <= fuel ->
  (forall I, In I (traversal an L F) ->
     isLoopInvariant L F I && safeToHoist an L F I = false) ->
  runOnLoop fuel an L F =
    Done {| hs_fn := F; hs_modified := false; hs_instructions := [];
            hs_examined := traversal an L F |}.
Proof.
  intros Hwf Hfuel Hno.
  destruct (wellFormed_inv an L F Hwf)
    as (Hids & Hinsts & Hnodes & P & D & HPre & HP & Hterm).
  unfold runOnLoop, hoistInstructions. rewrite HPre, Hterm.
  rewrite (nodes_loop_idle fuel an L (Some D) F); [reflexivity..|].
  intros BB HBB ER. repeat split.
  - now apply blockInsts_NoDup.
  - intros D' HD' Hin. inversion HD'; subst D'.
    apply retained_in_loop in ER.
    rewrite (one_block F Hinsts D BB P Hin (D_in_preheader F P D Hterm)) in ER.
    congruence.
  - etransitivity; [apply blockInsts_length|exact Hfuel].
  - intros I HI. apply Hno. unfold traversal, retainedNodes.
    apply in_flat_map. exists BB. split; [|exact HI].
    apply filter_In. now split.
Qed.

Lemma nothing_eligible_nothing_done_witness :
  wellFormed ex_an_strict ex_loop ex_fn = true /\
  length (allInsts ex_fn) <= 10 /\
  runOnLoop 10 ex_an_strict ex_loop ex_fn =
    Done {| hs_fn := ex_fn; hs_modified := false; hs_instructions := [];
            hs_examined := traversal ex_an_strict ex_loop ex_fn |}.
Proof.
  split; [reflexivity|]. split; [simpl; lia|].
  apply (nothing_eligible_nothing_done 10 ex_an_strict ex_loop ex_fn).
  - reflexivity.
  - simpl. lia.
  - intros I _. rewrite safeToHoist_oracle. apply andb_false_r.
Defined.

(** ** What a run leaves alone *)

(** X8: a run on a well-formed input does not touch the instruction list of
    any block other than the preheader and the blocks it visits: blocks
    outside the loop, blocks of sub-loops and blocks the dominator tree does
    not yield keep their contents. *)
Theorem skipped_blocks_untouched (fuel : nat) (an : Analyses) (L : Loop)
  (F : Function) (P b : BlockId) (s : HoistState) :
  wellFormed an L F = true ->
  length (allInsts F) <= fuel ->
  getLoopPreheader L = Some P ->
  runOnLoop fuel an L F = Done s ->
  b <> P ->
  ~ In b (retainedNodes an L) ->
  blockInsts (hs_fn s) b = blockInsts F b.
Proof.
  intros Hwf Hfuel HPre Hrun HbP Hb.
  destruct (run_closed_form fuel an L F Hwf Hfuel)
    as (P' & D & s' & HPre' & _ & _ & Hrun' & (_ & _ & Hl) & Hsel & _).
  rewrite Hrun in Hrun'. inversion Hrun'; subst s'.
  rewrite HPre in HPre'. inversion HPre'; subst P'.
  destruct (wellFormed_inv an L F Hwf) as (_ & Hinsts & _).
  rewrite Hl. apply Nat.eqb_neq in HbP. rewrite HbP.
  apply filter_notin_id. intros x Hx Hin. rewrite Hsel in Hin.
  apply selectHoisted_incl in Hin as [[]|Hin].
  unfold traversal in Hin. apply in_flat_map in Hin as (BB & HBB & Hin).
  apply Hb. now rewrite (one_block F Hinsts x b BB Hx Hin).
Qed.

Lemma skipped_blocks_untouched_witness :
  wellFormed ex_an ex_loop ex_fn = true /\
  length (allInsts ex_fn) <= 10 /\
  ~ In 2 (retainedNodes ex_an ex_loop) /\
  blockInsts ex_fn_hoisted 2 = blockInsts ex_fn 2.
Proof.
  split; [reflexivity|]. split; [simpl; lia|].
  assert (Hskip : ~ In 2 (retainedNodes ex_an ex_loop)).
  { simpl. intros [E|[]]. discriminate E. }
  split; [exact Hskip|].
  apply (skipped_blocks_untouched 10 ex_an ex_loop ex_fn 0 2
           {| hs_fn := ex_fn_hoisted; hs_modified := true;
              hs_instructions := [11; 12];
              hs_examined := [10; 11; 12; 13; 14; 15; 16; 17] |}).
  - reflexivity.
  - simpl. lia.
  - reflexivity.
  - reflexivity.
  - discriminate.
  - exact Hskip.
Defined.

(** X9: a run on a well-formed input never turns an invariant instruction
    into a variant one: whatever [isLoopInvariant] accepted in the function
    before the run, it accepts in the function after it. *)
Theorem invariance_survives_the_run (fuel : nat) (an : Analyses) (L : Loop)
  (F : Function) (s : HoistState) (J : InstId) :
  wellFormed an L F = true ->
  length (allInsts F) <= fuel ->
  runOnLoop fuel an L F = Done s ->
  isLoopInvariant L F J = true ->
  isLoopInvariant L (hs_fn s) J = true.
Proof.
  intros Hwf Hfuel Hrun Hinv.
  destruct (run_closed_form fuel an L F Hwf Hfuel)
    as (P & D & s' & _ & HP & Hterm & Hrun' & HR & _ & _).
  rewrite Hrun in Hrun'. inversion Hrun'; subst s'.
  destruct (wellFormed_inv an L F Hwf) as (Hids & Hinsts & _).
  pose proof HR as (Hi & _ & _).
  unfold isLoopInvariant, checkInstructionOperands in *.
  apply andb_true_iff in Hinv as [Hty Hops].
  rewrite (checkInstructionType_ext F _ J Hi), Hty. simpl.
  rewrite checkOperands_forallb in *. rewrite Hi.
  rewrite forallb_forall in *. intros V HV. specialize (Hops V HV).
  destruct V as [c|x|d]; simpl in *; auto.
  rewrite (containsInst_represents L F P D Hids Hinsts HP Hterm _ _ d HR).
  now destruct (memb d (hs_instructions s)).
Qed.

Lemma invariance_survives_the_run_witness :
  wellFormed ex_an ex_loop ex_fn = true /\
  length (allInsts ex_fn) <= 10 /\
  isLoopInvariant ex_loop ex_fn 15 = true /\
  isLoopInvariant ex_loop ex_fn_hoisted 15 = true.
Proof.
  do 3 (split; [first [reflexivity|simpl; lia]|]).
  apply (invariance_survives_the_run 10 ex_an ex_loop ex_fn
           {| hs_fn := ex_fn_hoisted; hs_modified := true;
              hs_instructions := [11; 12];
              hs_examined := [10; 11; 12; 13; 14; 15; 16; 17] |} 15).
  - reflexivity.
  - simpl. lia.
  - reflexivity.
  - reflexivity.
Defined.

(** ** The function a run returns is again a well-formed input *)




Lemma NoDup_flat_map_blocks (g : BlockId -> list InstId) (ids : list BlockId) :
  NoDup ids ->
  (forall b, In b ids -> NoDup (g b)) ->
  (forall b b' x, In b ids -> In b' ids -> In x (g b) -> In x (g b') -> b = b') ->
  NoDup (flat_map g ids).
Proof.
  induction 1 as [|b ids Hb Hnd IH]; intros Heach Hdis; simpl; [constructor|].
  apply NoDup_app.
  - apply Heach. now left.
  - apply IH.
    + intros b' Hb'. apply Heach. now right.
    + intros b1 b2 x H1 H2. apply Hdis; now right.
  - intros x Hx Hin. apply in_flat_map in Hin as (b' & Hb' & Hin).
    apply Hb. rewrite (Hdis b b' x); auto; [now left|now right].
Qed.




(* ================================================================== *)
(** * The statistics pass *)

(** ** The counting loops *)

Lemma count_if_increments (A : Type) (test : A -> bool) (l : list A) :
  forall count,
    LoopInfoNA.count_if test l count =
    increments (length (filter test l)) count.
Proof.
  induction l as [|x l IH]; intros count; simpl; [reflexivity|].
  destruct (test x); simpl; [|apply IH].
  destruct (LoopInfoNA.increment count); [apply IH|reflexivity].
Qed.

Lemma increments_exact (n : nat) :
  forall count,
    (count + Z.of_nat n <= LoopInfoNA.INT_MAX)%Z ->
    increments n count = Some (count + Z.of_nat n)%Z.
Proof.
  induction n as [|n IH]; intros count Hle.
  - simpl. f_equal. lia.
  - cbn [increments]. unfold LoopInfoNA.increment.
    destruct (count <? LoopInfoNA.INT_MAX)%Z eqn:E.
    + rewrite IH by lia. f_equal. lia.
    + apply Z.ltb_ge in E. lia.
Qed.

Lemma increments_app (n m : nat) (count : Z) :
  increments (n + m) count =
  match increments n count with
  | Some count' => increments m count'
  | None => None
  end.
Proof.
  revert count. induction n as [|n IH]; intros count; simpl; [reflexivity|].
  destruct (LoopInfoNA.increment count); [apply IH|reflexivity].
Qed.

Lemma getNumAtomics_loop_increments (h : InstId -> bool) (F : Function)
  (bbs : list BlockId) :
  forall count,
    LoopInfoNA.getNumAtomics_loop h F bbs count =
    increments
      (length (filter (LoopInfoNA.isAtomic h) (flat_map (blockInsts F) bbs)))
      count.
Proof.
  induction bbs as [|bb bbs IH]; intros count; simpl; [reflexivity|].
  rewrite filter_app, length_app, increments_app, count_if_increments.
  destruct (increments _ count); [apply IH|reflexivity].
Qed.

Lemma getNumBranches_loop_increments (F : Function) (L : LoopInfoNA.LoopNode)
  (bbs : list BlockId) :
  forall count,
    LoopInfoNA.getNumBranches_loop F L bbs count =
    increments
      (length (filter (LoopInfoNA.isBranchInstruction F)
                 (flat_map (blockInsts F)
                    (filter (fun bb => negb (LoopInfoNA.isInSubLoop L bb))
                            bbs))))
      count.
Proof.
  induction bbs as [|bb bbs IH]; intros count; simpl; [reflexivity|].
  destruct (LoopInfoNA.isInSubLoop L bb); simpl; [apply IH|].
  rewrite filter_app, length_app, increments_app, count_if_increments.
  destruct (increments _ count); [apply IH|reflexivity].
Qed.

Lemma add_size_exact (count : Z) (n : nat) :
  (0 <= count)%Z -> (count + Z.of_nat n <= LoopInfoNA.INT_MAX)%Z ->
  LoopInfoNA.add_size count n = (count + Z.of_nat n)%Z.
Proof.
  unfold LoopInfoNA.add_size, LoopInfoNA.to_int, LoopInfoNA.INT_MAX.
  intros H0 Hle.
  rewrite (Z.mod_small count) by lia.
  rewrite (Z.mod_small (count + Z.of_nat n)) by lia.
  rewrite (Z.mod_small (count + Z.of_nat n)) by lia.
  destruct (count + Z.of_nat n <? 2147483648)%Z eqn:E; [reflexivity|].
  apply Z.ltb_ge in E. lia.
Qed.

Lemma getNumInstructions_fold_exact (F : Function) (bbs : list BlockId) :
  forall count,
    (0 <= count)%Z ->
    (count + Z.of_nat (length (flat_map (blockInsts F) bbs))
     <= LoopInfoNA.INT_MAX)%Z ->
    fold_left (fun c bb => LoopInfoNA.add_size c (length (blockInsts F bb)))
              bbs count =
    (count + Z.of_nat (length (flat_map (blockInsts F) bbs)))%Z.
Proof.
  induction bbs as [|bb bbs IH]; intros count H0 Hle; simpl in *.
  - lia.
  - rewrite length_app in Hle.
    rewrite add_size_exact by lia. rewrite IH by lia.
    rewrite length_app. lia.
Qed.

Lemma anyContains_none (SLs : list Loop) (BB : BlockId) :
  length SLs = 0 -> LoopInfoNA.anyContains SLs BB = false.
Proof.
  destruct SLs; [reflexivity|discriminate].
Qed.

(** X15: when the loop has at most [INT_MAX] blocks, [getNumBlocks] returns
    a count between 0 and the number of blocks of the loop, and for a loop
    without nested loops it returns exactly the number of its blocks. *)
Theorem getNumBlocks_bounds (L : LoopInfoNA.LoopNode) :
  (Z.of_nat (length (LoopInfoNA.blocks L)) <= LoopInfoNA.INT_MAX)%Z ->
  exists n,
    LoopInfoNA.getNumBlocks L = Some n /\
    (0 <= n <= Z.of_nat (length (LoopInfoNA.blocks L)))%Z /\
    (LoopInfoNA.hasNestedLoops L = false ->
     n = Z.of_nat (length (LoopInfoNA.blocks L))).
Proof.
  intros Hle. unfold LoopInfoNA.getNumBlocks.
  rewrite count_if_increments.
  set (kept := filter (fun BB => negb (LoopInfoNA.isInSubLoop L BB))
                      (LoopInfoNA.blocks L)).
  pose proof (filter_length_le
                (fun BB => negb (LoopInfoNA.isInSubLoop L BB))
                (LoopInfoNA.blocks L)) as Hk.
  fold kept in Hk.
  exists (0 + Z.of_nat (length kept))%Z.
  split; [apply increments_exact; lia|]. split; [lia|].
  intros Hn. unfold LoopInfoNA.hasNestedLoops in Hn.
  apply negb_false_iff, Nat.eqb_eq in Hn.
  unfold kept. rewrite forallb_filter_id; [lia|].
  apply forallb_forall. intros BB _.
  unfold LoopInfoNA.isInSubLoop. now rewrite anyContains_none.
Qed.

Lemma getNumBlocks_bounds_witness :
  (Z.of_nat (length (LoopInfoNA.blocks ex_node)) <= LoopInfoNA.INT_MAX)%Z /\
  exists n,
    LoopInfoNA.getNumBlocks ex_node = Some n /\
    (0 <= n <= Z.of_nat (length (LoopInfoNA.blocks ex_node)))%Z /\
    (LoopInfoNA.hasNestedLoops ex_node = false ->
     n = Z.of_nat (length (LoopInfoNA.blocks ex_node))).
Proof.
  assert (H : (Z.of_nat (length (LoopInfoNA.blocks ex_node))
               <= LoopInfoNA.INT_MAX)%Z) by (vm_compute; discriminate).
  split; [exact H|]. exact (getNumBlocks_bounds ex_node H).
Defined.

Lemma flat_map_filter_length (A B : Type) (g : A -> list B) (keep : A -> bool)
  (l : list A) :
  length (flat_map g (filter keep l)) <= length (flat_map g l).
Proof.
  induction l as [|x l IH]; simpl; [lia|].
  destruct (keep x); simpl; rewrite !length_app; lia.
Qed.

(** X16: when the blocks of the loop hold at most [INT_MAX] instructions in
    total, [getNumInstructions] returns that total, and [getNumAtomics] and
    [getNumBranches] return counts between 0 and it. *)
Theorem counters_within_instruction_count (h : InstId -> bool) (F : Function)
  (L : LoopInfoNA.LoopNode) :
  (Z.of_nat (length (LoopInfoNA.loopInsts F L)) <= LoopInfoNA.INT_MAX)%Z ->
  LoopInfoNA.getNumInstructions F L =
    Z.of_nat (length (LoopInfoNA.loopInsts F L)) /\
  exists a b,
    LoopInfoNA.getNumAtomics h F L = Some a /\
    LoopInfoNA.getNumBranches F L = Some b /\
    (0 <= a <= LoopInfoNA.getNumInstructions F L)%Z /\
    (0 <= b <= LoopInfoNA.getNumInstructions F L)%Z.
Proof.
  intros Hle. unfold LoopInfoNA.loopInsts in *.
  assert (Hn : LoopInfoNA.getNumInstructions F L =
               Z.of_nat (length (flat_map (blockInsts F) (LoopInfoNA.blocks L)))).
  { unfold LoopInfoNA.getNumInstructions.
    rewrite getNumInstructions_fold_exact; lia. }
  split; [exact Hn|]. rewrite Hn.
  unfold LoopInfoNA.getNumAtomics, LoopInfoNA.getNumBranches.
  rewrite getNumAtomics_loop_increments, getNumBranches_loop_increments.
  set (all := flat_map (blockInsts F) (LoopInfoNA.blocks L)) in *.
  set (visited := flat_map (blockInsts F)
         (filter (fun bb => negb (LoopInfoNA.isInSubLoop L bb))
                 (LoopInfoNA.blocks L))).
  assert (Hv : length visited <= length all).
  { apply flat_map_filter_length. }
  pose proof (filter_length_le (LoopInfoNA.isAtomic h) all) as Ha.
  pose proof (filter_length_le (LoopInfoNA.isBranchInstruction F) visited)
    as Hb.
  eexists. eexists.
  split; [apply increments_exact; lia|].
  split; [apply increments_exact; lia|]. lia.
Qed.

Lemma counters_within_instruction_count_witness :
  (Z.of_nat (length (LoopInfoNA.loopInsts ex_fn ex_node))
   <= LoopInfoNA.INT_MAX)%Z /\
  LoopInfoNA.getNumInstructions ex_fn ex_node = 8%Z /\
  LoopInfoNA.getNumAtomics ex_atomic ex_fn ex_node = Some 1%Z /\
  LoopInfoNA.getNumBranches ex_fn ex_node = Some 1%Z /\
  exists a b,
    LoopInfoNA.getNumAtomics ex_atomic ex_fn ex_node = Some a /\
    LoopInfoNA.getNumBranches ex_fn ex_node = Some b /\
    (0 <= a <= LoopInfoNA.getNumInstructions ex_fn ex_node)%Z /\
    (0 <= b <= LoopInfoNA.getNumInstructions ex_fn ex_node)%Z.
Proof.
  assert (H : (Z.of_nat (length (LoopInfoNA.loopInsts ex_fn ex_node))
               <= LoopInfoNA.INT_MAX)%Z) by (vm_compute; discriminate).
  split; [exact H|]. do 3 (split; [reflexivity|]).
  exact (proj2 (counters_within_instruction_count ex_atomic ex_fn ex_node H)).
Defined.

(** ** Overflow of the instruction counter *)

Lemma to_int_range (z : Z) :
  (-2147483648 <= LoopInfoNA.to_int z < 2147483648)%Z.
Proof.
  unfold LoopInfoNA.to_int.
  pose proof (Z.mod_pos_bound z 4294967296 ltac:(lia)) as Hb.
  destruct (z mod 4294967296 <? 2147483648)%Z eqn:E.
  - apply Z.ltb_lt in E. lia.
  - apply Z.ltb_ge in E. lia.
Qed.

Lemma to_int_mod (z : Z) :
  (LoopInfoNA.to_int z mod 4294967296 = z mod 4294967296)%Z.
Proof.
  unfold LoopInfoNA.to_int.
  destruct (z mod 4294967296 <? 2147483648)%Z.
  - apply Z.mod_mod. lia.
  - replace (z mod 4294967296 - 4294967296)%Z
      with (z mod 4294967296 + (-1) * 4294967296)%Z by lia.
    rewrite Z.mod_add by lia. apply Z.mod_mod. lia.
Qed.

Lemma add_size_mod (count : Z) (n : nat) :
  (LoopInfoNA.add_size count n mod 4294967296 =
   (count + Z.of_nat n) mod 4294967296)%Z.
Proof.
  unfold LoopInfoNA.add_size. rewrite to_int_mod.
  assert (Hdiv : (4294967296 | 18446744073709551616)%Z).
  { exists 4294967296%Z. reflexivity. }
  rewrite (Z.mod_mod_divide _ _ _ Hdiv).
  rewrite Z.add_mod by lia.
  rewrite (Z.mod_mod_divide _ _ _ Hdiv).
  rewrite <- Z.add_mod by lia. reflexivity.
Qed.

Lemma getNumInstructions_fold_mod (F : Function) (bbs : list BlockId) :
  forall count,
    (fold_left (fun c bb => LoopInfoNA.add_size c (length (blockInsts F bb)))
               bbs count mod 4294967296 =
     (count + Z.of_nat (length (flat_map (blockInsts F) bbs)))
       mod 4294967296)%Z.
Proof.
  induction bbs as [|bb bbs IH]; intros count; simpl.
  - f_equal. lia.
  - rewrite IH, length_app, Nat2Z.inj_add.
    rewrite Z.add_mod by lia. rewrite add_size_mod.
    rewrite <- Z.add_mod by lia. f_equal. lia.
Qed.

Lemma getNumInstructions_fold_range (F : Function) (bbs : list BlockId) :
  forall count,
    (-2147483648 <= count < 2147483648)%Z ->
    (-2147483648 <=
     fold_left (fun c bb => LoopInfoNA.add_size c (length (blockInsts F bb)))
               bbs count < 2147483648)%Z.
Proof.
  induction bbs as [|bb bbs IH]; intros count Hc; simpl; [exact Hc|].
  apply IH. apply to_int_range.
Qed.

(** X17: [getNumInstructions] always returns a value an [int] can hold, and
    it is the number of instructions of the blocks of the loop up to a
    multiple of 2^32: past [INT_MAX] the count wraps around without
    trapping. *)
Theorem getNumInstructions_wraps (F : Function) (L : LoopInfoNA.LoopNode) :
  (-2147483648 <= LoopInfoNA.getNumInstructions F L < 2147483648)%Z /\
  (LoopInfoNA.getNumInstructions F L mod 4294967296 =
   Z.of_nat (length (LoopInfoNA.loopInsts F L)) mod 4294967296)%Z.
Proof.
  unfold LoopInfoNA.getNumInstructions, LoopInfoNA.loopInsts. split.
  - apply getNumInstructions_fold_range. lia.
  - now rewrite getNumInstructions_fold_mod.
Qed.

(** ** The statistics of a function after hoisting *)

(** What a run on a well-formed input records: distinct instructions of the
    traversal, each of an eligible opcode. *)
Lemma run_hoisted_facts (fuel : nat) (an : Analyses) (L : Loop)
  (F : Function) (s : HoistState) :
  wellFormed an L F = true ->
  length (allInsts F) <= fuel ->
  runOnLoop fuel an L F = Done s ->
  NoDup (hs_instructions s) /\
  (forall x, In x (hs_instructions s) ->
     In x (traversal an L F) /\ checkInstructionType F x = true) /\
  exists P D,
    getLoopPreheader L = Some P /\ contains L P = false /\
    getTerminator F P = Some D /\
    represents F P D (hs_instructions s) (hs_fn s).
Proof.
  intros Hwf Hfuel Hrun.
  destruct (run_closed_form fuel an L F Hwf Hfuel)
    as (P & D & s' & HPre & HP & Hterm & Hrun' & HR & Hsel & _).
  rewrite Hrun in Hrun'. inversion Hrun'; subst s'. clear Hrun'.
  destruct (wellFormed_inv an L F Hwf) as (_ & Hinsts & Hnodes & _).
  pose proof (traversal_NoDup an L F Hinsts Hnodes) as HndT.
  split; [|split].
  - rewrite Hsel.
    rewrite (selectHoisted_order an L F (traversal an L F) [] HndT)
      by (intros x _ []).
    simpl. now apply NoDup_filter.
  - intros x Hx. rewrite Hsel in Hx.
    now apply selectHoisted_eligible in Hx as [[]|Hx].
  - now exists P, D.
Qed.

Lemma branch_not_eligible (F : Function) (I : InstId) :
  LoopInfoNA.isBranchInstruction F I = true ->
  checkInstructionType F I = false.
Proof.
  unfold LoopInfoNA.isBranchInstruction, checkInstructionType.
  destruct (opcode (fn_inst F I)); simpl; congruence.
Qed.

Lemma filter_branches_hoisted (F : Function) (H l : list InstId) :
  (forall x, In x H -> checkInstructionType F x = true) ->
  filter (LoopInfoNA.isBranchInstruction F)
         (filter (fun x => negb (memb x H)) l) =
  filter (LoopInfoNA.isBranchInstruction F) l.
Proof.
  intros Hty. induction l as [|x l IH]; simpl; [reflexivity|].
  destruct (memb x H) eqn:M; simpl.
  - destruct (LoopInfoNA.isBranchInstruction F x) eqn:B; [|exact IH].
    apply memb_true_iff, Hty in M.
    rewrite (branch_not_eligible F x B) in M. discriminate.
  - now rewrite IH.
Qed.

Lemma filter_none (A : Type) (f : A -> bool) (l : list A) :
  (forall x, In x l -> f x = false) -> filter f l = [].
Proof.
  induction l as [|x l IH]; simpl; intros H; [reflexivity|].
  rewrite (H x) by now left. apply IH. intros y Hy. apply H. now right.
Qed.

(** Hoisting changes the branches of no block. *)
Lemma block_branches_kept (fuel : nat) (an : Analyses) (L : Loop)
  (F : Function) (s : HoistState) (b : BlockId) :
  wellFormed an L F = true ->
  length (allInsts F) <= fuel ->
  runOnLoop fuel an L F = Done s ->
  filter (LoopInfoNA.isBranchInstruction (hs_fn s)) (blockInsts (hs_fn s) b) =
  filter (LoopInfoNA.isBranchInstruction F) (blockInsts F b).
Proof.
  intros Hwf Hfuel Hrun.
  destruct (run_hoisted_facts fuel an L F s Hwf Hfuel Hrun)
    as (_ & HH & P & D & _ & _ & Hterm & (Hi & _ & Hl)).
  assert (Hty : forall x, In x (hs_instructions s) ->
                          checkInstructionType F x = true).
  { intros x Hx. now apply HH. }
  assert (HB : LoopInfoNA.isBranchInstruction (hs_fn s) =
               LoopInfoNA.isBranchInstruction F).
  { unfold LoopInfoNA.isBranchInstruction. now rewrite Hi. }
  rewrite HB, Hl. destruct (b =? P) eqn:E.
  - apply Nat.eqb_eq in E. subst b.
    rewrite (preheader_shape F P D Hterm) at 2.
    rewrite !filter_app. f_equal.
    rewrite (filter_none _ (LoopInfoNA.isBranchInstruction F)
               (hs_instructions s)); [reflexivity|].
    intros x Hx.
    destruct (LoopInfoNA.isBranchInstruction F x) eqn:B; [|reflexivity].
    specialize (Hty x Hx). rewrite (branch_not_eligible F x B) in Hty.
    discriminate.
  - now apply filter_branches_hoisted.
Qed.

Lemma filter_flat_map (A B : Type) (f : B -> bool) (g : A -> list B)
  (l : list A) :
  filter f (flat_map g l) = flat_map (fun x => filter f (g x)) l.
Proof.
  induction l as [|x l IH]; simpl; [reflexivity|].
  now rewrite filter_app, IH.
Qed.

Lemma flat_map_pointwise (A B : Type) (g g' : A -> list B) (l : list A) :
  (forall x, In x l -> g x = g' x) -> flat_map g l = flat_map g' l.
Proof.
  intros H. rewrite !flat_map_concat_map. f_equal. now apply map_ext_in.
Qed.

(** X18: hoisting out of one loop leaves the branch count of every loop of
    the function as it was: whatever [getNumBranches] returned for a loop
    before the run of the hoisting pass, it returns after it. *)
Theorem hoisting_keeps_branch_counts (fuel : nat) (an : Analyses) (L : Loop)
  (F : Function) (s : HoistState) (Ln : LoopInfoNA.LoopNode) :
  wellFormed an L F = true ->
  length (allInsts F) <= fuel ->
  runOnLoop fuel an L F = Done s ->
  LoopInfoNA.getNumBranches (hs_fn s) Ln = LoopInfoNA.getNumBranches F Ln.
Proof.
  intros Hwf Hfuel Hrun. unfold LoopInfoNA.getNumBranches.
  rewrite !getNumBranches_loop_increments, !filter_flat_map.
  f_equal. f_equal. apply flat_map_pointwise. intros b _.
  now apply (block_branches_kept fuel an L F s b).
Qed.

Lemma hoisting_keeps_branch_counts_witness :
  wellFormed ex_an ex_loop ex_fn = true /\
  length (allInsts ex_fn) <= 10 /\
  LoopInfoNA.getNumBranches ex_fn ex_node = Some 1%Z /\
  LoopInfoNA.getNumBranches ex_fn_hoisted ex_node =
  LoopInfoNA.getNumBranches ex_fn ex_node.
Proof.
  do 3 (split; [first [reflexivity|simpl; lia]|]).
  apply (hoisting_keeps_branch_counts 10 ex_an ex_loop ex_fn
           {| hs_fn := ex_fn_hoisted; hs_modified := true;
              hs_instructions := [11; 12];
              hs_examined := [10; 11; 12; 13; 14; 15; 16; 17] |} ex_node).
  - reflexivity.
  - simpl. lia.
  - reflexivity.
Defined.

Lemma hoisted_count (A H : list InstId) :
  NoDup A -> NoDup H -> incl H A ->
  length (filter (fun x => negb (memb x H)) A) + length H = length A.
Proof.
  intros HA HH Hincl.
  pose proof (filter_length (fun x => memb x H) A) as Hsplit.
  assert (Hperm : Permutation (filter (fun x => memb x H) A) H).
  { apply NoDup_Permutation; [now apply NoDup_filter|exact HH|].
    intros x. rewrite filter_In, memb_true_iff. split; [tauto|].
    intros Hx. split; [now apply Hincl|exact Hx]. }
  apply Permutation_length in Hperm. lia.
Qed.

(** X19: after the hoisting pass has run on a loop, [getNumInstructions] for
    that loop has dropped by exactly the number of instructions the run
    reports as hoisted (the loop's blocks being listed once and holding at
    most [INT_MAX] instructions). *)
Theorem hoisting_lowers_instruction_count (fuel : nat) (an : Analyses)
  (L : Loop) (F : Function) (s : HoistState) (Ln : LoopInfoNA.LoopNode) :
  wellFormed an L F = true ->
  length (allInsts F) <= fuel ->
  runOnLoop fuel an L F = Done s ->
  LoopInfoNA.theLoop Ln = L ->
  NoDup (loop_blocks L) ->
  (Z.of_nat (length (LoopInfoNA.loopInsts F Ln)) <= LoopInfoNA.INT_MAX)%Z ->
  LoopInfoNA.getNumInstructions (hs_fn s) Ln =
  (LoopInfoNA.getNumInstructions F Ln - Z.of_nat (length (hs_instructions s)))%Z.
Proof.
  intros Hwf Hfuel Hrun HLn HndL Hle.
  destruct (run_hoisted_facts fuel an L F s Hwf Hfuel Hrun)
    as (HndH & HH & P & D & _ & HP & _ & (_ & _ & Hl)).
  destruct (wellFormed_inv an L F Hwf) as (_ & Hinsts & _).
  unfold LoopInfoNA.loopInsts, LoopInfoNA.blocks in *. rewrite HLn in *.
  assert (HG : flat_map (blockInsts (hs_fn s)) (loop_blocks L) =
               filter (fun x => negb (memb x (hs_instructions s)))
                      (flat_map (blockInsts F) (loop_blocks L))).
  { rewrite filter_flat_map. apply flat_map_pointwise. intros b Hb.
    rewrite Hl. destruct (b =? P) eqn:E; [|reflexivity].
    apply Nat.eqb_eq in E. subst b.
    apply memb_true_iff in Hb. unfold contains in HP. congruence. }
  assert (Hcount : length (flat_map (blockInsts (hs_fn s)) (loop_blocks L)) +
                   length (hs_instructions s) =
                   length (flat_map (blockInsts F) (loop_blocks L))).
  { rewrite HG. apply hoisted_count; [|exact HndH|].
    - apply NoDup_flat_map_blocks; [exact HndL| |].
      + intros b _. now apply blockInsts_NoDup.
      + intros b b' x _ _. apply (one_block F Hinsts).
    - intros x Hx. apply HH in Hx as [Hx _].
      unfold traversal, retainedNodes in Hx.
      apply in_flat_map in Hx as (BB & HBB & Hx).
      apply filter_In in HBB as [_ ER]. apply retained_in_loop in ER.
      apply in_flat_map. exists BB. split; [|exact Hx].
      now apply memb_true_iff. }
  unfold LoopInfoNA.getNumInstructions, LoopInfoNA.blocks. rewrite HLn.
  rewrite !getNumInstructions_fold_exact; lia.
Qed.

Lemma hoisting_lowers_instruction_count_witness :
  wellFormed ex_an ex_loop ex_fn = true /\
  length (allInsts ex_fn) <= 10 /\
  LoopInfoNA.getNumInstructions ex_fn ex_node = 8%Z /\
  LoopInfoNA.getNumInstructions ex_fn_hoisted ex_node =
  (LoopInfoNA.getNumInstructions ex_fn ex_node -
   Z.of_nat (length [11; 12]))%Z.
Proof.
  do 3 (split; [first [reflexivity|simpl; lia]|]).
  apply (hoisting_lowers_instruction_count 10 ex_an ex_loop ex_fn
           {| hs_fn := ex_fn_hoisted; hs_modified := true;
              hs_instructions := [11; 12];
              hs_examined := [10; 11; 12; 13; 14; 15; 16; 17] |} ex_node).
  - reflexivity.
  - simpl. lia.
  - reflexivity.
  - reflexivity.
  - repeat constructor. simpl. tauto.
  - vm_compute. discriminate.
Defined.

(* ================================================================== *)
(** * Hoisting through a loop nest *)

(** X13: let the hoisting pass run on an inner loop and then on an outer
    loop whose traversal reaches the inner preheader.  An instruction the
    inner run hoisted whose operands are invariant for the outer loop is
    hoisted again by the outer run, and ends up in the outer preheader. *)
Theorem inner_hoist_feeds_outer_run (fuel : nat) (an : Analyses)
  (L1 L2 : Loop) (F : Function) (s1 s2 : HoistState) (P1 P2 : BlockId)
  (I : InstId) :
  wellFormed an L1 F = true ->
  length (allInsts F) <= fuel ->
  runOnLoop fuel an L1 F = Done s1 ->
  getLoopPreheader L1 = Some P1 ->
  In I (hs_instructions s1) ->
  wellFormed an L2 (hs_fn s1) = true ->
  length (allInsts (hs_fn s1)) <= fuel ->
  getLoopPreheader L2 = Some P2 ->
  In P1 (retainedNodes an L2) ->
  isLoopInvariant L2 (hs_fn s1) I = true ->
  runOnLoop fuel an L2 (hs_fn s1) = Done s2 ->
  In I (hs_instructions s2) /\ getParent (hs_fn s2) I = Some P2.
Proof.
  intros Hwf1 Hfuel1 Hrun1 HPre1 HI Hwf2 Hfuel2 HPre2 HP1 Hinv Hrun2.
  (* the inner run *)
  destruct (run_closed_form fuel an L1 F Hwf1 Hfuel1)
    as (P1' & D1 & s1' & HPre1' & _ & _ & Hrun1' & (Hi1 & _ & Hl1) & Hsel1 & _).
  rewrite Hrun1 in Hrun1'. inversion Hrun1'; subst s1'. clear Hrun1'.
  rewrite HPre1 in HPre1'. inversion HPre1'; subst P1'. clear HPre1'.
  assert (Hsafe : isSafeToSpeculativelyExecute an I = true).
  { rewrite Hsel1 in HI.
    apply selectHoisted_passes in HI as [[]|HI].
    unfold eligibleAfter in HI. now apply andb_true_iff in HI as [_ HI]. }
  assert (HIP1 : In I (blockInsts (hs_fn s1) P1)).
  { rewrite Hl1, Nat.eqb_refl. apply in_or_app. right.
    apply in_or_app. now left. }
  (* the outer run *)
  set (G := hs_fn s1) in *.
  destruct (run_closed_form fuel an L2 G Hwf2 Hfuel2)
    as (P2' & D2 & s2' & HPre2' & _ & _ & Hrun2' & HR2 & Hsel2 & _).
  rewrite Hrun2 in Hrun2'. inversion Hrun2'; subst s2'. clear Hrun2'.
  rewrite HPre2 in HPre2'. inversion HPre2'; subst P2'. clear HPre2'.
  destruct (wellFormed_inv an L2 G Hwf2) as (Hids2 & _).
  assert (HIT : In I (traversal an L2 G)).
  { unfold traversal. apply in_flat_map. now exists P1. }
  assert (HI2 : In I (hs_instructions s2)).
  { rewrite Hsel2. apply in_split in HIT as (pre & post & ->).
    apply selectHoisted_selected.
    pose proof Hinv as Hinv'. unfold isLoopInvariant in Hinv'.
    apply andb_true_iff in Hinv' as [Hty _].
    apply eligibleAfter_operands; auto.
    - now rewrite safeToHoist_oracle.
    - apply (proj1 (isLoopInvariant_operands_Forall L2 G I Hty)) in Hinv.
      eapply Forall_impl; [|exact Hinv]. intros V HV. now right. }
  split; [exact HI2|].
  exact (getParent_hoisted G P2 D2 _ _ I Hids2 HR2 HI2).
Qed.

Lemma inner_hoist_feeds_outer_run_witness :
  runOnLoop 7 ex2_an ex2_inner ex2_fn =
    Done {| hs_fn := ex2_fn_inner; hs_modified := true;
            hs_instructions := [31]; hs_examined := [31; 32] |} /\
  runOnLoop 7 ex2_an ex2_outer ex2_fn_inner =
    Done {| hs_fn := ex2_fn_outer; hs_modified := true;
            hs_instructions := [31]; hs_examined := [21; 31; 30; 40] |} /\
  In 31 [31] /\ getParent ex2_fn_outer 31 = Some 0.
Proof.
  split; [reflexivity|]. split; [reflexivity|].
  apply (inner_hoist_feeds_outer_run 7 ex2_an ex2_inner ex2_outer ex2_fn
           {| hs_fn := ex2_fn_inner; hs_modified := true;
              hs_instructions := [31]; hs_examined := [31; 32] |}
           {| hs_fn := ex2_fn_outer; hs_modified := true;
              hs_instructions := [31]; hs_examined := [21; 31; 30; 40] |}
           2 0 31).
  - reflexivity.
  - simpl. lia.
  - reflexivity.
  - reflexivity.
  - simpl. tauto.
  - reflexivity.
  - simpl. lia.
  - reflexivity.
  - simpl. tauto.
  - reflexivity.
  - reflexivity.
Defined.

(* ================================================================== *)
(** * The oracle and the caller's vector *)





(** X14: [hoistInstructions] only appends to the vector its caller hands
    it: whatever the vector held on entry is a prefix of what it holds on
    return, and the flag is true exactly when something was appended. *)
Theorem hoistInstructions_appends (fuel : nat) (an : Analyses) (L : Loop)
  (Instructions : list InstId) (F : Function) (s : HoistState) :
  hoistInstructions fuel an L Instructions F = Done s ->
  exists added,
    hs_instructions s = Instructions ++ added /\
    (hs_modified s = true <-> added <> []).
Proof.
  unfold hoistInstructions.
  destruct (getLoopPreheader L) as [P|]; [|discriminate].
  intros Hrun.
  refine (nodes_loop_invariant an L (getTerminator F P)
            (fun s => exists added,
               hs_instructions s = Instructions ++ added /\
               (hs_modified s = true <-> added <> []))
            _ fuel (dt_nodes (DT an)) _ s _ Hrun).
  - intros I s1 s2 (added & Hadd & Hflag) Hv.
    destruct (visit_Done_inv _ _ _ _ _ _ Hv) as [[_ [D [_ ->]]]|[_ ->]]; simpl.
    + exists (added ++ [I]). rewrite Hadd, app_assoc.
      split; [reflexivity|]. split; [intros _|reflexivity].
      intros E. now apply app_eq_nil in E as [_ E].
    + now exists added.
  - exists []. simpl. rewrite app_nil_r.
    split; [reflexivity|]. split; [discriminate|congruence].
Qed.

Lemma hoistInstructions_appends_witness :
  hoistInstructions 10 ex_an ex_loop [99] ex_fn =
    Done {| hs_fn := ex_fn_hoisted; hs_modified := true;
            hs_instructions := [99; 11; 12];
            hs_examined := [10; 11; 12; 13; 14; 15; 16; 17] |} /\
  exists added,
    [99; 11; 12] = [99] ++ added /\ (true = true <-> added <> []).
Proof.
  split; [reflexivity|].
  exact (hoistInstructions_appends 10 ex_an ex_loop [99] ex_fn _ eq_refl).
Defined.
